(** * intezzar: the time-driven hooks of [src/App.js]

    A shallow embedding of the four custom React hooks of [App.js]
    ([useCountdown], [useShayariRotation], [useAudioPlayer],
    [useMouseParallax]), of the mount sequence of the [App] component and
    of what the components compute from the hooks, followed by the
    properties of the specification that concern them and by further
    properties read off the code.

    Conventions of the embedding:
    - a JavaScript Number is a [number]: an exact rational in lowest terms,
      [NaN], or a signed infinity.  Binary64 rounding and the sign of zero
      are not modelled;
    - a [Date] is its time value, an integral number of milliseconds ([Z]);
    - a hook is a record holding its [useState]/[useRef] cells, and every
      callback of the hook (an effect, an interval tick, an event handler) is
      a function from that record to the record after the callback and the
      re-render it schedules. *)

From Stdlib Require Import ZArith QArith Qcanon Qround Lia Lqa List String Bool.
From Stdlib Require Import Ascii.
Import ListNotations.

(** ** JavaScript numbers *)

Module JS.

Inductive number : Type :=
| Num (q : Qc)
| NaN
| Infinity (negative : bool).

Definition of_Z (z : Z) : Qc := Q2Qc (inject_Z z).

(** An integer literal, or any integral Number. *)
Definition int (z : Z) : number := Num (of_Z z).

(** A decimal literal such as [365.25]. *)
Definition lit (q : Q) : number := Num (Q2Qc q).

Definition is_zero (q : Qc) : bool :=
  match (q ?= 0)%Qc with Eq => true | _ => false end.

Definition is_neg (q : Qc) : bool :=
  match (q ?= 0)%Qc with Lt => true | _ => false end.

(** Rounding towards zero, as [%] does on the quotient. *)
Definition Qtrunc (q : Q) : Z :=
  match (q ?= 0)%Q with Lt => Qceiling q | _ => Qfloor q end.

Definition neg (a : number) : number :=
  match a with
  | Num q => Num (- q)
  | NaN => NaN
  | Infinity s => Infinity (negb s)
  end.

Definition add (a b : number) : number :=
  match a, b with
  | Num p, Num q => Num (p + q)
  | NaN, _ | _, NaN => NaN
  | Infinity s, Infinity t => if Bool.eqb s t then Infinity s else NaN
  | Infinity s, Num _ | Num _, Infinity s => Infinity s
  end.

Definition sub (a b : number) : number := add a (neg b).

Definition mul (a b : number) : number :=
  match a, b with
  | Num p, Num q => Num (p * q)
  | NaN, _ | _, NaN => NaN
  | Infinity s, Infinity t => Infinity (xorb s t)
  | Infinity s, Num q | Num q, Infinity s =>
      if is_zero q then NaN else Infinity (xorb s (is_neg q))
  end.

Definition div (a b : number) : number :=
  match a, b with
  | Num p, Num q =>
      if is_zero q
      then (if is_zero p then NaN else Infinity (is_neg p))
      else Num (p / q)
  | NaN, _ | _, NaN => NaN
  | Infinity _, Infinity _ => NaN
  | Infinity s, Num q => Infinity (xorb s (is_neg q))
  | Num _, Infinity _ => Num 0
  end.

(** The remainder operator [%]: the result takes the sign of the dividend. *)
Definition rem (a b : number) : number :=
  match a, b with
  | Num p, Num q =>
      if is_zero q then NaN
      else Num (p - q * of_Z (Qtrunc (p / q)%Qc))
  | NaN, _ | _, NaN => NaN
  | Infinity _, _ => NaN
  | Num p, Infinity _ => Num p
  end.

(** [Math.floor]. *)
Definition floor (a : number) : number :=
  match a with
  | Num q => int (Qfloor q)
  | NaN => NaN
  | Infinity s => Infinity s
  end.

(** The comparison [a > b]; any comparison with [NaN] is false. *)
Definition gt (a b : number) : bool :=
  match a, b with
  | Num p, Num q => match (p ?= q)%Qc with Gt => true | _ => false end
  | NaN, _ | _, NaN => false
  | Infinity s, Infinity t => negb s && t
  | Infinity s, Num _ => negb s
  | Num _, Infinity t => t
  end.

(** The comparison [a <= b]. *)
Definition le (a b : number) : bool :=
  match a, b with
  | Num p, Num q => match (p ?= q)%Qc with Gt => false | _ => true end
  | NaN, _ | _, NaN => false
  | Infinity s, Infinity t => s || negb t
  | Infinity s, Num _ => s
  | Num _, Infinity t => negb t
  end.

(** How a call completes: normally with a value, or abruptly with a thrown
    error. *)
Inductive completion (A : Type) : Type :=
| Normal (a : A)
| Throw (e : string).
Arguments Normal {A} a.
Arguments Throw {A} e.

(** [lines[i]]: the element at an index that is a non-negative integer
    below the length, [undefined] ([None]) for any other Number. *)
Definition index {A : Type} (l : list A) (i : number) : option A :=
  match i with
  | Num q =>
      if Qc_eq_bool q (of_Z (Qfloor q)) && (0 <=? Qfloor q)%Z
      then nth_error l (Z.to_nat (Qfloor q))
      else None
  | _ => None
  end.

End JS.

Declare Scope js_scope.
Delimit Scope js_scope with js.
Bind Scope js_scope with JS.number.
Infix "+" := JS.add : js_scope.
Infix "-" := JS.sub : js_scope.
Infix "*" := JS.mul : js_scope.
Infix "/" := JS.div : js_scope.
Infix "rem" := JS.rem (at level 40, no associativity) : js_scope.
Infix ">" := JS.gt : js_scope.
Infix "<=" := JS.le : js_scope.

(** ** useCountdown *)

Module useCountdown.
Import JS.
Local Open Scope js_scope.

(** The object held by [timeLeft] once it has been computed. *)
Record TimeLeft : Type := {
  years : number;
  days : number;
  hours : number;
  minutes : number;
  seconds : number
}.

(** [calculateTimeLeft], with [targetDateRef.current.getTime()] and
    [new Date().getTime()] as explicit arguments. *)
Definition calculateTimeLeft (target now : Z) : TimeLeft :=
  let difference := int target - int now in
  if difference > int 0 then
    {| years :=
         floor (difference
                / (int 1000 * int 60 * int 60 * int 24 * lit 365.25));
       days :=
         floor ((difference / (int 1000 * int 60 * int 60 * int 24))
                rem lit 365.25);
       hours := floor ((difference / (int 1000 * int 60 * int 60)) rem int 24);
       minutes := floor ((difference / int 1000 / int 60) rem int 60);
       seconds := floor ((difference / int 1000) rem int 60) |}
  else
    {| years := int 0; days := int 0; hours := int 0; minutes := int 0;
       seconds := int 0 |}.

(** The cells of the hook: the [timeLeft] state ([None] is the initial
    [{}]) and whether the interval created by the effect is live.  The
    target is not a cell of the hook: it lives in the ref object that the
    caller passes in, and every callback reads [targetDateRef.current]
    afresh, so the value of the ref at the time of the call is an argument
    of the callback. *)
Record Hook : Type := {
  timeLeft : option TimeLeft;
  timer : bool
}.

(** First render: [useState({})], no effect has run yet. *)
Definition render : Hook := {| timeLeft := None; timer := false |}.

(** The body of the effect, run at clock reading [now]:
    [setTimeLeft(calculateTimeLeft())], then [setInterval]. *)
Definition effect (target now : Z) (h : Hook) : Hook :=
  {| timeLeft := Some (calculateTimeLeft target now); timer := true |}.

(** One expiry of the 1000 ms interval at clock reading [now]; a cleared
    interval does not fire. *)
Definition tick (target now : Z) (h : Hook) : Hook :=
  if timer h
  then {| timeLeft := Some (calculateTimeLeft target now); timer := true |}
  else h.

(** The cleanup returned by the effect: [clearInterval(timer)]. *)
Definition cleanup (h : Hook) : Hook :=
  {| timeLeft := timeLeft h; timer := false |}.

(** Every state the hook exposes while the interval fires at the clock
    readings [nows], the ref holding [target] throughout. *)
Fixpoint states (target : Z) (nows : list Z) (h : Hook)
  : list (option TimeLeft) :=
  match nows with
  | [] => []
  | now :: rest =>
      timeLeft (tick target now h) :: states target rest (tick target now h)
  end.

Definition zero : TimeLeft :=
  {| years := int 0; days := int 0; hours := int 0; minutes := int 0;
     seconds := int 0 |}.

(** No field is negative. *)
Definition nonnegative (t : TimeLeft) : bool :=
  (int 0 <= years t) && (int 0 <= days t) && (int 0 <= hours t)
  && (int 0 <= minutes t) && (int 0 <= seconds t).

(** The breakdown in the words of the specification, on the exact
    difference [diff] in milliseconds. *)
Module Spec.

Definition ms_per_minute : Z := 60 * 1000.
Definition ms_per_hour : Z := 60 * ms_per_minute.
Definition ms_per_day : Z := 24 * ms_per_hour.

(** [x mod m] on rationals: the representative of [x] in [[0, m)]. *)
Definition Qmodulo (x m : Q) : Q := (x - m * inject_Z (Qfloor (x / m)))%Q.

Definition years (diff : Z) : Z :=
  Qfloor (inject_Z diff / (inject_Z ms_per_day * 365.25))%Q.
Definition days (diff : Z) : Z :=
  Qfloor (Qmodulo (inject_Z diff / inject_Z ms_per_day) 365.25).
Definition hours (diff : Z) : Z :=
  (Qfloor (inject_Z diff / inject_Z ms_per_hour) mod 24)%Z.
Definition minutes (diff : Z) : Z :=
  (Qfloor (inject_Z diff / inject_Z ms_per_minute) mod 60)%Z.
Definition seconds (diff : Z) : Z :=
  (Qfloor (inject_Z diff / 1000) mod 60)%Z.

Definition state (diff : Z) : TimeLeft :=
  if (diff <=? 0)%Z then
    {| useCountdown.years := int 0; useCountdown.days := int 0;
       useCountdown.hours := int 0; useCountdown.minutes := int 0;
       useCountdown.seconds := int 0 |}
  else
    {| useCountdown.years := int (years diff);
       useCountdown.days := int (days diff);
       useCountdown.hours := int (hours diff);
       useCountdown.minutes := int (minutes diff);
       useCountdown.seconds := int (seconds diff) |}.

End Spec.

End useCountdown.

(** ** useShayariRotation *)

Module useShayariRotation.
Import JS.
Local Open Scope js_scope.

(** The cells of the hook: the index state and whether the interval is
    live. *)
Record Hook : Type := {
  currentShayariIndex : number;
  timer : bool
}.

(** The cells right after mounting: [useState(0)], and the interval
    created by the effect. *)
Definition started : Hook := {| currentShayariIndex := int 0; timer := true |}.

(** Mounting the hook on [lines].  The hook touches [lines] only through
    [lines.length] and [lines[i]], neither of which throws on an array, and
    contains no [throw]: it always completes normally. *)
Definition mount (lines : list string) : completion Hook := Normal started.

(** One expiry of the interval:
    [setCurrentShayariIndex(prevIndex => (prevIndex + 1) % lines.length)]. *)
Definition tick (lines : list string) (h : Hook) : Hook :=
  if timer h then
    {| currentShayariIndex :=
         (currentShayariIndex h + int 1)
         rem int (Z.of_nat (List.length lines));
       timer := true |}
  else h.

Definition cleanup (h : Hook) : Hook :=
  {| currentShayariIndex := currentShayariIndex h; timer := false |}.

(** The second component of the value the hook returns:
    [lines[currentShayariIndex]]. *)
Definition currentShayari (lines : list string) (h : Hook) : option string :=
  index lines (currentShayariIndex h).

(** The hook after [k] expiries of the interval. *)
Definition after (k : nat) (lines : list string) (h : Hook) : Hook :=
  Nat.iter k (tick lines) h.

End useShayariRotation.

(** ** useAudioPlayer *)

Module useAudioPlayer.

(** A request made on the audio element. *)
Inductive request : Type := Play | Pause.

(** How the promise returned by [play()] settles. *)
Inductive settlement : Type := Fulfilled | Rejected (e : string).

(** A line written to the console. *)
Inductive entry : Type :=
| Log (msg : string)
| Error (msg : string) (e : string).

(** The cells of the hook and the part of the world it acts on:
    [audioRef.current] ([None] is [null], [Some src] the element React
    attaches), the [isPlayingAudio] state, the requests made on the element
    so far, the number of [play()] promises not yet settled, and the
    console. *)
Record Hook : Type := {
  audioRef : option string;
  isPlayingAudio : bool;
  requests : list request;
  pending : nat;
  console : list entry
}.

(** First render and the mount effect: [useRef(null)], [useState(false)],
    and the console message when it is truthy. *)
Definition mount (consoleMessage : option string) : Hook :=
  {| audioRef := None;
     isPlayingAudio := false;
     requests := [];
     pending := 0;
     console := match consoleMessage with
                | Some msg =>
                    if String.eqb msg EmptyString then [] else [Log msg]
                | None => []
                end |}.

(** React stores the [<audio>] element in the ref when it commits. *)
Definition attach (src : string) (h : Hook) : Hook :=
  {| audioRef := Some src;
     isPlayingAudio := isPlayingAudio h;
     requests := requests h;
     pending := pending h;
     console := console h |}.

(** [toggleAudio] as created by a render in which the state was
    [isPlayingAudio]: the closure reads that captured value, not the cell. *)
Definition toggleAudio (isPlayingAudio : bool) (h : Hook) : Hook :=
  match audioRef h with
  | Some _ =>
      {| audioRef := audioRef h;
         isPlayingAudio := negb isPlayingAudio;
         requests := requests h ++ [if isPlayingAudio then Pause else Play];
         pending := if isPlayingAudio then pending h else S (pending h);
         console := console h |}
  | None => h
  end.

(** A click on the button runs the [toggleAudio] of the latest render. *)
Definition click (h : Hook) : Hook := toggleAudio (isPlayingAudio h) h.

(** The oldest outstanding [play()] promise settles; on rejection the
    [catch] handler writes to [console.error]. *)
Definition settle (r : settlement) (h : Hook) : Hook :=
  match pending h with
  | O => h
  | S n =>
      {| audioRef := audioRef h;
         isPlayingAudio := isPlayingAudio h;
         requests := requests h;
         pending := n;
         console := match r with
                    | Fulfilled => console h
                    | Rejected e => console h ++ [Error "Audio play failed:" e]
                    end |}
  end.

Inductive event : Type :=
| Click
| Settle (r : settlement).

Definition step (h : Hook) (ev : event) : Hook :=
  match ev with
  | Click => click h
  | Settle r => settle r h
  end.

Definition run (evs : list event) (h : Hook) : Hook := fold_left step evs h.

(** The number of clicks in a trace. *)
Definition clicks (evs : list event) : nat :=
  List.length (filter (fun ev => match ev with Click => true | _ => false end)
                      evs).

(** The same trace in which every [play()] promise is fulfilled. *)
Definition all_fulfilled (evs : list event) : list event :=
  map (fun ev =>
         match ev with Click => Click | Settle _ => Settle Fulfilled end)
      evs.

(** Two hooks that differ at most in their console. *)
Definition same_playback (h h' : Hook) : Prop :=
  audioRef h = audioRef h' /\ isPlayingAudio h = isPlayingAudio h'
  /\ requests h = requests h' /\ pending h = pending h'.

(** The hook of the [AudioPlayer] component once mounted. *)
Definition paused (src : string) (consoleMessage : option string) : Hook :=
  attach src (mount consoleMessage).

End useAudioPlayer.

(** ** useMouseParallax *)

Module useMouseParallax.
Import JS.
Local Open Scope js_scope.

Record Offset : Type := { x : number; y : number }.

(** The fields read from the event and from [window]. *)
Record MouseEvent : Type := { clientX : number; clientY : number }.
Record Window : Type := { innerWidth : number; innerHeight : number }.

Definition handleMouseMove (strength : number) (window : Window)
    (e : MouseEvent) : Offset :=
  let centerX := innerWidth window / int 2 in
  let centerY := innerHeight window / int 2 in
  let offsetX := (clientX e - centerX) / centerX * strength in
  let offsetY := (clientY e - centerY) / centerY * strength in
  {| x := offsetX; y := offsetY |}.

(** The cells of the hook: the offset state and whether the listener is
    registered. *)
Record Hook : Type := { offset : Offset; listening : bool }.

(** [useState({ x: 0, y: 0 })], then the effect adds the listener. *)
Definition mount : Hook :=
  {| offset := {| x := int 0; y := int 0 |}; listening := true |}.

(** A [mousemove] event dispatched on [window]. *)
Definition mousemove (strength : number) (window : Window) (e : MouseEvent)
    (h : Hook) : Hook :=
  if listening h
  then {| offset := handleMouseMove strength window e; listening := true |}
  else h.

Definition cleanup (h : Hook) : Hook :=
  {| offset := offset h; listening := false |}.

(** Whether both components lie in [[-strength, +strength]]. *)
Definition bounded (strength : number) (o : Offset) : bool :=
  (neg strength <= x o) && (x o <= strength)
  && (neg strength <= y o) && (y o <= strength).

(** A pointer event and a viewport with finite coordinates. *)
Definition at_ (px py : Qc) : MouseEvent :=
  {| clientX := Num px; clientY := Num py |}.
Definition viewport (w h : Qc) : Window :=
  {| innerWidth := Num w; innerHeight := Num h |}.

End useMouseParallax.

(** ** App: the target date and the countdown section *)

Module App.

Section Mount.

(** [d.setFullYear(d.getFullYear() + 5)] as a function on time values. *)
Variable addFiveYears : Z -> Z.

(** [targetDate.current] (one [Date] object, shared with the countdown
    section through the ref) and the hook of [CountdownSection]. *)
Record State : Type := {
  targetDate : Z;
  countdown : useCountdown.Hook
}.

(** Rendering [App] at clock reading [now]: [useRef(new Date())], and the
    first render of the section below it. *)
Definition render (now : Z) : State :=
  {| targetDate := now; countdown := useCountdown.render |}.

(** The effect of [useCountdown] in [CountdownSection]. *)
Definition countdownEffect (now : Z) (s : State) : State :=
  {| targetDate := targetDate s;
     countdown := useCountdown.effect (targetDate s) now (countdown s) |}.

(** The effect of [App]: the [Date] in the ref is moved five years on. *)
Definition appEffect (s : State) : State :=
  {| targetDate := addFiveYears (targetDate s); countdown := countdown s |}.

(** Mounting: [App] renders at [t0]; after the commit React runs the
    effects of a child before those of its parent, so the effect of
    [useCountdown] (at clock reading [t1]) precedes the effect of [App]. *)
Definition mount (t0 t1 : Z) : State :=
  appEffect (countdownEffect t1 (render t0)).

(** An expiry of the countdown interval at clock reading [now]. *)
Definition tick (now : Z) (s : State) : State :=
  {| targetDate := targetDate s;
     countdown := useCountdown.tick (targetDate s) now (countdown s) |}.

End Mount.

End App.

(** ** The components that consume the hooks *)

(** *** Truthiness and the [||] operator *)

Module JSLogic.
Import JS.

(** [ToBoolean] on a Number: [0] and [NaN] are falsy. *)
Definition truthy (a : number) : bool :=
  match a with
  | Num q => negb (is_zero q)
  | NaN => false
  | Infinity _ => true
  end.

(** [a || b] where [a] is a Number or [undefined] ([None]). *)
Definition or_else (a : option number) (b : number) : number :=
  match a with
  | Some v => if truthy v then v else b
  | None => b
  end.

(** A finite Number. *)
Definition finite (a : number) : bool :=
  match a with Num _ => true | _ => false end.

(** An integral Number between two bounds. *)
Definition integer_between (lo hi : Z) (a : number) : Prop :=
  exists z : Z, a = int z /\ (lo <= z <= hi)%Z.

End JSLogic.

(** *** CountdownSection *)

Module CountdownSection.
Import JS JSLogic useCountdown.

(** [timeLeft.years] and the like: [undefined] on the initial [{}]. *)
Definition field (f : TimeLeft -> number) (timeLeft : option TimeLeft)
  : option number :=
  option_map f timeLeft.

(** The five numbers the section puts on the page:
    [{timeLeft.years || 0}], ..., [{timeLeft.seconds || 0}]. *)
Definition shown (timeLeft : option TimeLeft) : TimeLeft :=
  {| years := or_else (field years timeLeft) (int 0);
     days := or_else (field days timeLeft) (int 0);
     hours := or_else (field hours timeLeft) (int 0);
     minutes := or_else (field minutes timeLeft) (int 0);
     seconds := or_else (field seconds timeLeft) (int 0) |}.

(** What the section shows for the hook it holds. *)
Definition render (h : Hook) : TimeLeft := shown (timeLeft h).

End CountdownSection.

(** *** ShayariCarousel *)

Module ShayariCarousel.
Import JS useShayariRotation.

(** The line the carousel shows after [k] expiries of the interval. *)
Definition shownAfter (lines : list string) (k : nat) : option string :=
  currentShayari lines (after k lines started).

(** The lines shown over one pass: before any expiry and after each of the
    first [length lines - 1] expiries. *)
Definition pass (lines : list string) : list (option string) :=
  map (shownAfter lines) (seq 0 (List.length lines)).

End ShayariCarousel.

(** *** AudioPlayer *)

Module AudioPlayer.
Import useAudioPlayer.

(** [n] requests that alternate, the first being a pause when [playing]
    and a play otherwise. *)
Fixpoint alternating (n : nat) (playing : bool) : list request :=
  match n with
  | O => []
  | S n => (if playing then Pause else Play) :: alternating n (negb playing)
  end.

(** The number of [play()] requests in a list of requests. *)
Definition plays (rs : list request) : nat :=
  List.length
    (filter (fun r => match r with Play => true | Pause => false end) rs).

(** Whether a console line is the report of a failed [play()]. *)
Definition isPlayFailure (en : entry) : bool :=
  match en with
  | Error msg _ => String.eqb msg "Audio play failed:"
  | Log _ => false
  end.

(** What holds of the console and of the outstanding promises of a hook
    whose console was [c0] when it was mounted: the later lines are all
    reports of failed plays, and failures and outstanding promises
    together do not exceed the plays requested. *)
Definition consoleInvariant (c0 : list entry) (h : Hook) : Prop :=
  exists errs : list entry,
    console h = c0 ++ errs
    /\ forallb isPlayFailure errs = true
    /\ (List.length errs + pending h <= plays (requests h))%nat.

End AudioPlayer.

(** *** HeroSection *)

Module HeroSection.
Import JS useMouseParallax.

(** [useMouseParallax(15)]. *)
Definition strength : number := int 15.

(** The hook after a sequence of [mousemove] events, each with the window
    dimensions at the time of the event. *)
Definition moves (strength : number) (es : list (Window * MouseEvent))
    (h : Hook) : Hook :=
  fold_left (fun h we => mousemove strength (fst we) (snd we) h) es h.

(** The offset with both components negated. *)
Definition opposite (o : Offset) : Offset :=
  {| x := neg (x o); y := neg (y o) |}.

End HeroSection.

(** *** CommitmentPledgeSection *)

Module CommitmentPledgeSection.

(** The line feed, the separator in [quote.split('\n')]. *)
Definition newline : ascii := "010"%char.

(** [s.split(sep)] for a separator of one character: the pieces between
    the occurrences of [sep], of which there is always at least one. *)
Fixpoint split (sep : ascii) (s : string) : list string :=
  match s with
  | EmptyString => [EmptyString]
  | String c rest =>
      if Ascii.eqb c sep then EmptyString :: split sep rest
      else
        match split sep rest with
        | piece :: pieces => String c piece :: pieces
        | [] => [String c EmptyString]
        end
  end.

(** [l.map((a, index) => f(a, index))], the index starting at [i]. *)
Fixpoint mapi_from {A B : Type} (f : A -> nat -> B) (i : nat) (l : list A)
  : list B :=
  match l with
  | [] => []
  | a :: rest => f a i :: mapi_from f (S i) rest
  end.

(** One [React.Fragment] of the block quote: its key, the text of the
    line, and whether a [<br />] follows. *)
Record Fragment : Type := {
  key : nat;
  line : string;
  br : bool
}.

(** The fragment made for [line] at position [index] when the quote has
    [total] lines: [<br />] follows when [index < total - 1]. *)
Definition fragment (total : nat) (line : string) (index : nat) : Fragment :=
  {| key := index;
     line := line;
     br := (Z.of_nat index <? Z.of_nat total - 1)%Z |}.

(** The children of the block quote:
    [quote.split('\n').map((line, index) => ...)], the total being
    [quote.split('\n').length]. *)
Definition render (quote : string) : list Fragment :=
  mapi_from (fragment (List.length (split newline quote))) 0
    (split newline quote).

(** The text a reader sees: the lines in order, each [<br />] read as a
    line feed. *)
Fixpoint text (fs : list Fragment) : string :=
  match fs with
  | [] => EmptyString
  | f :: rest =>
      (line f ++ (if br f then String newline EmptyString else EmptyString)
       ++ text rest)%string
  end.

(** The number of occurrences of a character in a string. *)
Fixpoint occurrences (c : ascii) (s : string) : nat :=
  match s with
  | EmptyString => O
  | String d rest =>
      if Ascii.eqb d c then S (occurrences c rest) else occurrences c rest
  end.

(** [pieces.join(sep)] for a separator of one character. *)
Fixpoint join (sep : ascii) (pieces : list string) : string :=
  match pieces with
  | [] => EmptyString
  | [piece] => piece
  | piece :: rest => (piece ++ String sep (join sep rest))%string
  end.

(** The number of [<br />] elements among the fragments. *)
Definition breaks (fs : list Fragment) : nat :=
  List.length (filter br fs).

End CommitmentPledgeSection.

(** *** VisualTransitionSection *)

Module VisualTransitionSection.
Import JS JSLogic.
Local Open Scope js_scope.

(** One star: its key, the numbers interpolated into the [width],
    [height], [top] and [left] of its style, and the [duration] and
    [delay] of its transition. *)
Record Star : Type := {
  key : nat;
  width : number;
  height : number;
  top : number;
  left : number;
  duration : number;
  delay : number
}.

(** The star of index [i].  [random n] is the result of the [n]-th call of
    [Math.random()] during the render; a star makes six calls, in the
    order of its properties. *)
Definition star (random : nat -> number) (i : nat) : Star :=
  let n := (6 * i)%nat in
  {| key := i;
     width := random n * int 3 + int 1;
     height := random (n + 1)%nat * int 3 + int 1;
     top := random (n + 2)%nat * int 90;
     left := random (n + 3)%nat * int 90;
     duration := random (n + 4)%nat * int 3 + int 2;
     delay := random (n + 5)%nat * int 2 |}.

(** [[...Array(20)].map((_, i) => ...)]. *)
Definition stars (random : nat -> number) : list Star :=
  map (star random) (seq 0 20).

(** [Math.random()] returns a finite Number in [[0, 1)]. *)
Definition unitInterval (a : number) : Prop :=
  exists q : Qc, a = Num q /\ (0 <= q)%Qc /\ (q < 1)%Qc.

(** Whether [lo <= a <= hi].  The upper bound is included: the sums
    above are exact here, while binary64 arithmetic can round a result up
    to the bound itself. *)
Definition within (lo hi : Z) (a : number) : bool :=
  (int lo <= a) && (a <= int hi).

End VisualTransitionSection.

(** * Properties *)

Import JS.
Open Scope js_scope.

(** ** Numbers *)

Section NumberFacts.

(** *** Canonical rationals and their underlying fractions *)

Lemma this_of_Z (z : Z) : this (of_Z z) = inject_Z z.
Proof.
  unfold of_Z, Q2Qc; cbn [this]. apply Qred_identity.
  cbn [inject_Z Qnum Qden]. apply Z.gcd_1_r.
Qed.

Lemma this_Q2Qc (q : Q) : this (Q2Qc q) == q.
Proof. cbn [this Q2Qc]. apply Qred_correct. Qed.

Lemma this_plus (a b : Qc) : this (a + b)%Qc == this a + this b.
Proof. apply this_Q2Qc. Qed.

Lemma this_mult (a b : Qc) : this (a * b)%Qc == this a * this b.
Proof. apply this_Q2Qc. Qed.

Lemma this_opp (a : Qc) : this (- a)%Qc == - this a.
Proof. apply this_Q2Qc. Qed.

Lemma this_minus (a b : Qc) : this (a - b)%Qc == this a - this b.
Proof. unfold Qcminus. rewrite this_plus, this_opp. reflexivity. Qed.

Lemma this_inv (a : Qc) : this (/ a)%Qc == / this a.
Proof. apply this_Q2Qc. Qed.

Lemma this_div (a b : Qc) : this (a / b)%Qc == this a / this b.
Proof. unfold Qcdiv. rewrite this_mult, this_inv. reflexivity. Qed.

(** Two canonical rationals are equal as soon as their fractions are. *)
Ltac canon :=
  apply Qc_is_canon;
  rewrite ?this_plus, ?this_mult, ?this_opp, ?this_of_Z.

Lemma of_Z_plus (a b : Z) : (of_Z a + of_Z b)%Qc = of_Z (a + b).
Proof. canon. rewrite inject_Z_plus. reflexivity. Qed.

Lemma of_Z_opp (a : Z) : (- of_Z a)%Qc = of_Z (- a).
Proof. canon. rewrite inject_Z_opp. reflexivity. Qed.

Lemma of_Z_mult (a b : Z) : (of_Z a * of_Z b)%Qc = of_Z (a * b).
Proof. canon. rewrite inject_Z_mult. reflexivity. Qed.

Lemma of_Z_compare (a b : Z) : (of_Z a ?= of_Z b)%Qc = (a ?= b)%Z.
Proof.
  unfold Qccompare. rewrite !this_of_Z.
  unfold Qcompare; cbn [inject_Z Qnum Qden].
  rewrite !Z.mul_1_r. reflexivity.
Qed.

Lemma inject_Z_pos (z : Z) : (0 < z)%Z -> (0 < inject_Z z)%Q.
Proof.
  intros H. change (inject_Z 0 < inject_Z z)%Q. now rewrite <- Zlt_Qlt.
Qed.

Lemma inject_Z_nonneg (z : Z) : (0 <= z)%Z -> (0 <= inject_Z z)%Q.
Proof.
  intros H. change (inject_Z 0 <= inject_Z z)%Q. now rewrite <- Zle_Qle.
Qed.

Lemma inject_Z_nonzero (z : Z) : z <> 0%Z -> ~ (inject_Z z == 0)%Q.
Proof.
  intros H E. apply H. apply (proj1 (inject_Z_injective z 0)). exact E.
Qed.

(** *** Arithmetic and comparison on integral Numbers *)

Lemma sub_int (a b : Z) : int a - int b = int (a - b).
Proof. unfold sub, int; cbn [neg add]. now rewrite of_Z_opp, of_Z_plus. Qed.

Lemma add_int (a b : Z) : int a + int b = int (a + b).
Proof. unfold int; cbn [add]. now rewrite of_Z_plus. Qed.

Lemma mul_int (a b : Z) : int a * int b = int (a * b).
Proof. unfold int; cbn [mul]. now rewrite of_Z_mult. Qed.

Lemma gt_int (a b : Z) : (int a > int b) = (b <? a)%Z.
Proof.
  unfold int; cbn [gt].
  rewrite of_Z_compare, Z.ltb_compare, (Z.compare_antisym a b).
  destruct (a ?= b)%Z; reflexivity.
Qed.

Lemma le_int (a b : Z) : (int a <= int b) = (a <=? b)%Z.
Proof.
  unfold int; cbn [le]. rewrite of_Z_compare, Z.leb_compare.
  destruct (a ?= b)%Z; reflexivity.
Qed.

Lemma le_Num (p q : Qc) : (Num p <= Num q) = true <-> (p <= q)%Qc.
Proof.
  cbn [le]. rewrite Qcle_alt.
  destruct (p ?= q)%Qc; split; intros H; congruence.
Qed.

(** *** Floor, truncation and the rational modulus *)

Lemma Qfloor_sub_Z (x : Q) (k : Z) :
  Qfloor (x - inject_Z k) = (Qfloor x - k)%Z.
Proof.
  destruct x as [n d].
  unfold Qminus, Qplus, Qopp, inject_Z, Qfloor; cbn [Qnum Qden].
  rewrite Pos.mul_1_r, Z.mul_1_r.
  replace (n + - k * Z.pos d)%Z with (n + (- k) * Z.pos d)%Z by reflexivity.
  rewrite Z.div_add by discriminate. lia.
Qed.

Lemma Qfloor_div_Z (x : Q) (m : Z) :
  (0 < m)%Z -> Qfloor (x / inject_Z m) = (Qfloor x / m)%Z.
Proof.
  intros Hm. destruct x as [n d]. destruct m as [|m|m]; try lia.
  unfold Qdiv, Qmult, Qinv, inject_Z, Qfloor; cbn [Qnum Qden].
  rewrite Z.mul_1_r, Pos2Z.inj_mul, Z.div_div by lia. reflexivity.
Qed.

Lemma Qtrunc_nonneg (x : Q) : (0 <= x)%Q -> Qtrunc x = Qfloor x.
Proof.
  intros Hx. unfold Qtrunc.
  destruct (Qcompare_spec x 0) as [_|Hlt|_]; try reflexivity.
  exfalso. apply (Qlt_not_le _ _ Hlt Hx).
Qed.

Lemma Qmodulo_comp (x x' m m' : Q) :
  x == x' -> m == m' ->
  useCountdown.Spec.Qmodulo x m == useCountdown.Spec.Qmodulo x' m'.
Proof.
  intros Hx Hm. unfold useCountdown.Spec.Qmodulo.
  rewrite (Qfloor_comp (x / m) (x' / m')) by (rewrite Hx, Hm; reflexivity).
  rewrite Hx, Hm. reflexivity.
Qed.

Lemma Qmodulo_nonneg (x m : Q) :
  (0 < m)%Q -> (0 <= useCountdown.Spec.Qmodulo x m)%Q.
Proof.
  intros Hm. unfold useCountdown.Spec.Qmodulo.
  assert (H : (m * inject_Z (Qfloor (x / m)) <= x)%Q).
  { rewrite Qmult_comm. apply Qmult_lt_0_le_reg_r with (/ m)%Q.
    - apply Qinv_lt_0_compat. exact Hm.
    - rewrite <- Qmult_assoc, Qmult_inv_r, Qmult_1_r.
      + apply Qfloor_le.
      + intros E. rewrite E in Hm. discriminate. }
  lra.
Qed.

Lemma Qfloor_nonneg (x : Q) : (0 <= x)%Q -> (0 <= Qfloor x)%Z.
Proof. intros H. apply (Qfloor_resp_le 0 x H). Qed.

Lemma Qdiv_nonneg (a b : Z) :
  (0 <= a)%Z -> (0 < b)%Z -> (0 <= inject_Z a / inject_Z b)%Q.
Proof.
  intros Ha Hb. apply Qle_shift_div_l.
  - now apply inject_Z_pos.
  - rewrite Qmult_0_l. now apply inject_Z_nonneg.
Qed.

Lemma Qfloor_modulo (x : Q) (m : Z) :
  (0 < m)%Z ->
  Qfloor (useCountdown.Spec.Qmodulo x (inject_Z m)) = (Qfloor x mod m)%Z.
Proof.
  intros Hm. unfold useCountdown.Spec.Qmodulo.
  rewrite <- inject_Z_mult, Qfloor_sub_Z, Qfloor_div_Z by assumption.
  rewrite Z.mod_eq by lia. reflexivity.
Qed.

Lemma is_zero_false (q : Qc) : ~ (this q == 0)%Q -> is_zero q = false.
Proof.
  intros H. unfold is_zero, Qccompare.
  destruct (Qcompare_spec q 0%Qc) as [E|_|_]; try reflexivity.
  exfalso. apply H. rewrite E. reflexivity.
Qed.

(** *** The operators on finite operands *)

Lemma div_Num (p q : Qc) : ~ (this q == 0)%Q -> Num p / Num q = Num (p / q).
Proof. intros H. unfold div. now rewrite (is_zero_false _ H). Qed.

Lemma floor_Num (p : Qc) : floor (Num p) = int (Qfloor p).
Proof. reflexivity. Qed.

(** [Math.floor(p % m)] for a non-negative [p] and a positive [m]. *)
Lemma floor_rem (p m : Qc) :
  (0 < this m)%Q -> (0 <= this p)%Q ->
  floor (Num p rem Num m) = int (Qfloor (useCountdown.Spec.Qmodulo p m)).
Proof.
  intros Hm Hp. unfold JS.rem.
  rewrite is_zero_false by (intros E; rewrite E in Hm; discriminate).
  rewrite floor_Num. f_equal.
  rewrite Qtrunc_nonneg.
  - apply Qfloor_comp. unfold useCountdown.Spec.Qmodulo.
    rewrite this_minus, this_mult, this_of_Z.
    rewrite (Qfloor_comp _ _ (this_div p m)). reflexivity.
  - rewrite this_div. apply Qle_shift_div_l; [assumption|].
    rewrite Qmult_0_l. assumption.
Qed.

End NumberFacts.

(** ** The countdown *)

Section CountdownFacts.
Import useCountdown.

Lemma floor_rem_int (p : Qc) (m : Z) :
  (0 < m)%Z -> (0 <= this p)%Q ->
  floor (Num p rem int m) = int (Qfloor p mod m).
Proof.
  intros Hm Hp. unfold int at 1. rewrite floor_rem; trivial.
  - f_equal. rewrite <- (Qfloor_modulo p m Hm).
    rewrite this_of_Z. reflexivity.
  - rewrite this_of_Z. now apply inject_Z_pos.
Qed.

Lemma div_int (a b : Z) :
  b <> 0%Z ->
  exists p : Qc,
    int a / int b = Num p /\ (this p == inject_Z a / inject_Z b)%Q.
Proof.
  intros Hb. exists (of_Z a / of_Z b)%Qc. split.
  - apply div_Num. rewrite this_of_Z. now apply inject_Z_nonzero.
  - rewrite this_div, !this_of_Z. reflexivity.
Qed.

Lemma calculateTimeLeft_spec (target now : Z) :
  calculateTimeLeft target now = Spec.state (target - now).
Proof.
  unfold calculateTimeLeft, Spec.state.
  rewrite sub_int, gt_int, Z.leb_antisym.
  set (d := (target - now)%Z).
  destruct (0 <? d)%Z eqn:Hd; [|reflexivity].
  apply Z.ltb_lt in Hd. cbn [negb].
  rewrite !mul_int.
  destruct (div_int d (1000 * 60 * 60 * 24)) as (pd & -> & Epd);
    [discriminate|].
  destruct (div_int d (1000 * 60 * 60)) as (ph & -> & Eph); [discriminate|].
  destruct (div_int d 1000) as (ps & Es & Eps); [discriminate|].
  rewrite Es.
  assert (Hpd : (0 <= this pd)%Q) by (rewrite Epd; apply Qdiv_nonneg; lia).
  assert (Hph : (0 <= this ph)%Q) by (rewrite Eph; apply Qdiv_nonneg; lia).
  assert (Hps : (0 <= this ps)%Q) by (rewrite Eps; apply Qdiv_nonneg; lia).
  f_equal.
  - (* years *)
    change (int (1000 * 60 * 60 * 24) * lit 365.25)
      with (Num (of_Z (1000 * 60 * 60 * 24) * Q2Qc 365.25)).
    unfold int at 1. rewrite div_Num by (vm_compute; discriminate).
    rewrite floor_Num. apply (f_equal int). unfold Spec.years.
    apply Qfloor_comp.
    rewrite this_div, this_mult, !this_of_Z, this_Q2Qc. reflexivity.
  - (* days *)
    unfold lit. rewrite floor_rem; trivial; [|reflexivity].
    apply (f_equal int). unfold Spec.days.
    apply Qfloor_comp, Qmodulo_comp; [exact Epd | apply this_Q2Qc].
  - (* hours *)
    rewrite floor_rem_int by (trivial; lia).
    unfold Spec.hours. rewrite Eph. reflexivity.
  - (* minutes *)
    unfold int at 1. rewrite div_Num by (vm_compute; discriminate).
    rewrite floor_rem_int.
    + unfold Spec.minutes. apply (f_equal int).
      apply (f_equal (fun z => (z mod 60)%Z)). apply Qfloor_comp.
      rewrite this_div, this_of_Z, Eps. unfold Spec.ms_per_minute.
      rewrite inject_Z_mult. field.
    + lia.
    + rewrite this_div, this_of_Z. apply Qle_shift_div_l; [reflexivity|].
      rewrite Qmult_0_l. exact Hps.
  - (* seconds *)
    rewrite floor_rem_int by (trivial; lia).
    unfold Spec.seconds. rewrite Eps. reflexivity.
Qed.

Lemma calculateTimeLeft_elapsed (target now : Z) :
  (target <= now)%Z -> calculateTimeLeft target now = zero.
Proof.
  intros H. unfold calculateTimeLeft. rewrite sub_int, gt_int.
  replace (0 <? target - now)%Z with false; [reflexivity|].
  symmetry. apply Z.ltb_ge. lia.
Qed.

Lemma spec_state_nonnegative (d : Z) : nonnegative (Spec.state d) = true.
Proof.
  unfold Spec.state. destruct (d <=? 0)%Z eqn:Hd; [reflexivity|].
  apply Z.leb_gt in Hd.
  unfold nonnegative; cbn [years days hours minutes seconds].
  rewrite !le_int, !andb_true_iff, !Z.leb_le. repeat split.
  - apply Qfloor_nonneg. apply Qle_shift_div_l; [reflexivity|].
    rewrite Qmult_0_l. apply inject_Z_nonneg. lia.
  - apply Qfloor_nonneg, Qmodulo_nonneg. reflexivity.
  - apply Z.mod_pos_bound. lia.
  - apply Z.mod_pos_bound. lia.
  - apply Z.mod_pos_bound. lia.
Qed.

Lemma tick_running (target now : Z) (h : Hook) :
  timer h = true ->
  tick target now h
  = {| timeLeft := Some (calculateTimeLeft target now); timer := true |}.
Proof. intros H. unfold tick. now rewrite H. Qed.

Lemma states_elapsed (target now : Z) (nows : list Z) :
  (target <= now)%Z -> Forall (Z.le now) nows ->
  forall h, timer h = true ->
  Forall (eq (Some zero)) (states target nows h).
Proof.
  intros Ht. induction 1 as [|t rest Hle _ IH]; intros h Hh; cbn [states].
  - constructor.
  - rewrite (tick_running _ _ _ Hh). cbn [timeLeft]. constructor.
    + rewrite calculateTimeLeft_elapsed by lia. reflexivity.
    + apply IH. reflexivity.
Qed.

Lemma calculateTimeLeft_nonnegative (target now : Z) :
  nonnegative (calculateTimeLeft target now) = true.
Proof. rewrite calculateTimeLeft_spec. apply spec_state_nonnegative. Qed.

(** C1.  For every target instant and current time, the state computed on
    a tick is the breakdown of the specification applied to
    [diff = target - now]: all fields 0 when [diff <= 0], and otherwise
    years = floor(diff / (ms_per_day * 365.25)),
    days = floor((diff / ms_per_day) mod 365.25),
    hours = floor(diff / ms_per_hour) mod 24,
    minutes = floor(diff / ms_per_minute) mod 60,
    seconds = floor(diff / 1000) mod 60.  The same state is what the mount
    effect and every expiry of the interval store in [timeLeft]. *)
Theorem countdown_tick_breakdown (target now : Z) :
  calculateTimeLeft target now = Spec.state (target - now)
  /\ (forall s : option TimeLeft,
        timeLeft (tick target now {| timeLeft := s; timer := true |})
        = Some (Spec.state (target - now)))
  /\ (forall h : Hook,
        timeLeft (effect target now h) = Some (Spec.state (target - now))).
Proof.
  repeat split; intros; cbn; now rewrite calculateTimeLeft_spec.
Qed.

(** C2.  For a fixed target, once the clock has reached the target
    ([target <= now]) the state computed at any later clock reading is
    exactly the all-zero state, so no field is negative, and every state
    the running hook exposes over any later sequence of expiries is that
    same all-zero state: nothing re-increments. *)
Theorem countdown_pinned_after_target (target now : Z) :
  (target <= now)%Z ->
  (forall later : Z, (now <= later)%Z ->
     calculateTimeLeft target later = zero
     /\ nonnegative (calculateTimeLeft target later) = true)
  /\ (forall (nows : list Z) (h : Hook),
        timer h = true -> Forall (Z.le now) nows ->
        Forall (eq (Some zero)) (states target nows h)).
Proof.
  intros Ht. split.
  - intros later Hl.
    rewrite calculateTimeLeft_elapsed by lia. split; reflexivity.
  - intros nows h Hh Hn. now apply states_elapsed with now.
Qed.

Lemma countdown_pinned_after_target_witness :
  (1000 <= 2000)%Z
  /\ calculateTimeLeft 1000 5000 = zero
  /\ Forall (eq (Some zero))
       (states 1000 [2000; 3000; 4000]%Z (effect 1000 0 render)).
Proof.
  assert (H : (1000 <= 2000)%Z) by lia.
  split; [exact H|]. split.
  - apply (proj1 (countdown_pinned_after_target 1000 2000 H) 5000%Z). lia.
  - apply (proj2 (countdown_pinned_after_target 1000 2000 H)).
    + reflexivity.
    + repeat constructor; lia.
Defined.

End CountdownFacts.

(** ** The target date *)

Section AppFacts.
Import useCountdown App.

Lemma mount_first_state (addFiveYears : Z -> Z) (t0 t1 : Z) :
  (t0 <= t1)%Z ->
  timeLeft (countdown (mount addFiveYears t0 t1)) = Some zero.
Proof.
  intros H. unfold mount, appEffect, countdownEffect, render, effect.
  cbn [countdown targetDate timeLeft].
  now rewrite calculateTimeLeft_elapsed.
Qed.

(** C7 does not hold of the code.  With [App] mounted at
    2026-01-01T00:00:00Z the ref ends up holding a target five years on,
    but the state computed when the countdown starts is all zeros: the
    effect of [useCountdown] ran before the effect of [App] moved the
    target, so the first state is derived from the mount instant, not from
    the target (4 years 365 days).  Only the expiry one second later
    reads the moved target. *)
Theorem first_countdown_state_precedes_target :
  let t0 := 1767225600000%Z in
  let addFiveYears := fun t : Z => (t + 157766400000)%Z in
  let s := App.mount addFiveYears t0 t0 in
  App.targetDate s = 1924992000000%Z
  /\ timeLeft (App.countdown s) = Some zero
  /\ calculateTimeLeft (App.targetDate s) t0
     = {| years := int 4; days := int 365; hours := int 0;
          minutes := int 0; seconds := int 0 |}
  /\ timeLeft (App.countdown (App.tick (t0 + 1000) s))
     = Some {| years := int 4; days := int 364; hours := int 23;
               minutes := int 59; seconds := int 59 |}.
Proof. repeat split; vm_compute; reflexivity. Qed.

End AppFacts.

(** ** The rotation *)

Section RotationFacts.
Import useShayariRotation.

Lemma rem_int (a n : Z) :
  (0 <= a)%Z -> (0 < n)%Z -> int a rem int n = int (a mod n).
Proof.
  intros Ha Hn. unfold JS.rem, int.
  rewrite is_zero_false
    by (rewrite this_of_Z; apply inject_Z_nonzero; lia).
  f_equal. rewrite Qtrunc_nonneg.
  - rewrite (Qfloor_comp _ _ (this_div _ _)), !this_of_Z, <- Zdiv_Qdiv.
    rewrite of_Z_mult. unfold Qcminus. rewrite of_Z_opp, of_Z_plus.
    f_equal. rewrite Z.mod_eq by lia. lia.
  - rewrite this_div, !this_of_Z. now apply Qdiv_nonneg.
Qed.

Lemma index_int (A : Type) (l : list A) (i : Z) :
  (0 <= i)%Z -> index l (int i) = nth_error l (Z.to_nat i).
Proof.
  intros Hi. unfold index, int. rewrite this_of_Z, Qfloor_Z.
  unfold Qc_eq_bool. destruct (Qc_eq_dec (of_Z i) (of_Z i)) as [_|Hne];
    [|congruence].
  now rewrite (proj2 (Z.leb_le 0 i) Hi).
Qed.

(** The hook on a non-empty list. *)
Section NonEmpty.

Variable lines : list string.
Hypothesis lines_nonempty : lines <> [].

Lemma length_positive : (0 < Z.of_nat (List.length lines))%Z.
Proof. destruct lines; [congruence | cbn [List.length]; lia]. Qed.

Lemma tick_index (i : Z) :
  (0 <= i)%Z ->
  tick lines {| currentShayariIndex := int i; timer := true |}
  = {| currentShayariIndex :=
         int ((i + 1) mod Z.of_nat (List.length lines));
       timer := true |}.
Proof.
  intros Hi. unfold tick; cbn [timer currentShayariIndex].
  rewrite add_int, rem_int; trivial; [lia | apply length_positive].
Qed.

Lemma after_index (k : nat) :
  after k lines started
  = {| currentShayariIndex :=
         int (Z.of_nat k mod Z.of_nat (List.length lines));
       timer := true |}.
Proof.
  pose proof length_positive as HN.
  induction k as [|k IH].
  - unfold after, started. cbn [Nat.iter nat_rect Z.of_nat].
    rewrite Z.mod_0_l by lia. reflexivity.
  - unfold after in *. rewrite Nat.iter_succ, IH.
    rewrite tick_index by (apply Z.mod_pos_bound; lia).
    rewrite Z.add_mod_idemp_l by lia. do 3 f_equal. lia.
Qed.

(** The line shown after [k] expiries is the one at position [k mod N]. *)
Lemma currentShayari_after (k : nat) :
  currentShayari lines (after k lines started)
  = nth_error lines (k mod List.length lines).
Proof.
  pose proof length_positive as HN.
  unfold currentShayari. rewrite after_index. cbn [currentShayariIndex].
  rewrite index_int by (apply Z.mod_pos_bound; lia).
  rewrite <- Nat2Z.inj_mod, Nat2Z.id. reflexivity.
Qed.

End NonEmpty.

Lemma tick_empty (h : Hook) :
  timer h = true ->
  tick [] h = {| currentShayariIndex := NaN; timer := true |}.
Proof.
  intros H. unfold tick. rewrite H. f_equal.
  destruct (currentShayariIndex h) as [q| |s]; reflexivity.
Qed.

Lemma after_empty (k : nat) :
  after (S k) [] started = {| currentShayariIndex := NaN; timer := true |}.
Proof.
  induction k as [|k IH].
  - reflexivity.
  - unfold after in *. rewrite Nat.iter_succ, IH.
    apply tick_empty. reflexivity.
Qed.

(** C3.  For every non-empty list of length N the hook starts with index 0;
    after exactly k expiries of the interval the index is k mod N; and an
    expiry at index i moves it to (i + 1) mod N. *)
Theorem rotation_index_after_ticks (lines : list string) :
  lines <> [] ->
  let N := Z.of_nat (List.length lines) in
  mount lines = Normal started
  /\ currentShayariIndex started = int 0
  /\ (forall k : nat,
        currentShayariIndex (after k lines started) = int (Z.of_nat k mod N))
  /\ (forall i : Z, (0 <= i < N)%Z ->
        currentShayariIndex
          (tick lines {| currentShayariIndex := int i; timer := true |})
        = int ((i + 1) mod N)).
Proof.
  intros Hl N. repeat split.
  - intros k. now rewrite after_index.
  - intros i Hi. rewrite tick_index by (trivial; lia). reflexivity.
Qed.

Lemma rotation_index_after_ticks_witness :
  ["a"; "b"; "c"]%string <> []
  /\ map (fun k => currentShayariIndex
                     (after k ["a"; "b"; "c"]%string started))
         [0; 1; 2; 3]%nat
     = [int 0; int 1; int 2; int 0].
Proof.
  assert (H : ["a"; "b"; "c"]%string <> []) by discriminate.
  split; [exact H|].
  cbn [map].
  rewrite !(proj1 (proj2 (proj2 (rotation_index_after_ticks _ H)))).
  reflexivity.
Defined.

(** C4 fails as stated: mounting the hook on the empty list does not
    complete with an error. *)
Lemma rotation_empty_list_no_error :
  ~ (exists e : string, mount [] = Throw e).
Proof. intros [e H]. discriminate H. Qed.

(** C4, amended.  Mounted on the empty list the hook raises no error: it
    starts its interval with index 0 and [currentShayari] undefined; every
    expiry then computes a remainder by zero, so the index is [NaN] from
    the first expiry on and [currentShayari] stays undefined. *)
Theorem rotation_empty_list_behaviour :
  mount [] = Normal started
  /\ timer started = true
  /\ currentShayari [] started = None
  /\ (forall k : nat, currentShayariIndex (after (S k) [] started) = NaN)
  /\ (forall k : nat, currentShayari [] (after k [] started) = None).
Proof.
  repeat split.
  - intros k. now rewrite after_empty.
  - intros [|k]; [reflexivity | now rewrite after_empty].
Qed.

End RotationFacts.

(** ** Playback *)

Section AudioFacts.
Import useAudioPlayer.

Lemma click_attached (h : Hook) :
  audioRef h <> None ->
  click h
  = {| audioRef := audioRef h;
       isPlayingAudio := negb (isPlayingAudio h);
       requests := requests h ++ [if isPlayingAudio h then Pause else Play];
       pending := if isPlayingAudio h then pending h else S (pending h);
       console := console h |}.
Proof.
  intros H. unfold click, toggleAudio.
  destruct (audioRef h); [reflexivity | congruence].
Qed.

Lemma settle_isPlaying (r : settlement) (h : Hook) :
  isPlayingAudio (settle r h) = isPlayingAudio h.
Proof. unfold settle. destruct (pending h); reflexivity. Qed.

Lemma settle_audioRef (r : settlement) (h : Hook) :
  audioRef (settle r h) = audioRef h.
Proof. unfold settle. destruct (pending h); reflexivity. Qed.

Lemma step_audioRef (h : Hook) (ev : event) :
  audioRef (step h ev) = audioRef h.
Proof.
  destruct ev as [|r]; cbn [step].
  - unfold click, toggleAudio.
    destruct (audioRef h) eqn:E; [reflexivity | exact E].
  - apply settle_audioRef.
Qed.

Lemma run_isPlaying (evs : list event) :
  forall h, audioRef h <> None ->
  isPlayingAudio (run evs h) = xorb (isPlayingAudio h) (Nat.odd (clicks evs)).
Proof.
  unfold run.
  induction evs as [|ev evs IH]; intros h Hh; cbn [fold_left].
  - cbn. now rewrite xorb_false_r.
  - rewrite IH by (rewrite step_audioRef; exact Hh).
    destruct ev as [|r]; cbn [step].
    + rewrite (click_attached _ Hh). cbn [isPlayingAudio].
      unfold clicks. cbn [filter List.length]. fold (clicks evs).
      rewrite Nat.odd_succ, <- Nat.negb_odd.
      destruct (isPlayingAudio h), (Nat.odd (clicks evs)); reflexivity.
    + rewrite settle_isPlaying. reflexivity.
Qed.

Lemma iter_click_run (n : nat) (h : Hook) :
  Nat.iter n click h = run (repeat Click n) h.
Proof.
  revert h. induction n as [|n IH]; intros h.
  - reflexivity.
  - rewrite Nat.iter_succ_r. cbn [repeat]. unfold run in *.
    cbn [fold_left step].
    apply IH.
Qed.

Lemma clicks_repeat (n : nat) : clicks (repeat Click n) = n.
Proof.
  unfold clicks. induction n as [|n IH]; cbn [repeat filter List.length];
    [reflexivity | now rewrite IH].
Qed.

Lemma run_all_fulfilled (evs : list event) :
  forall h h', same_playback h h' ->
  same_playback (run evs h) (run (all_fulfilled evs) h').
Proof.
  unfold run.
  induction evs as [|ev evs IH]; intros h h' Hs;
    cbn [all_fulfilled map fold_left].
  - exact Hs.
  - apply IH. destruct Hs as (Ha & Hp & Hr & Hn).
    destruct ev as [|r]; cbn [step].
    + unfold same_playback, click, toggleAudio.
      rewrite <- Ha, <- Hp, <- Hr, <- Hn.
      destruct (audioRef h) eqn:E; cbn; rewrite <- ?Ha, <- ?Hp, <- ?Hr, <- ?Hn;
        repeat split; trivial.
    + unfold same_playback, settle. rewrite <- Hn.
      destruct (pending h) eqn:E; cbn; repeat split; congruence.
Qed.

(** C5.  From the paused state of the mounted player, one click makes
    [isPlayingAudio] true with one [play()] promise still unsettled; a
    second click issues a pause and makes it false; after n clicks it is
    true exactly when n is odd, and this holds for any trace of clicks
    interleaved with settlements of the play promises. *)
Theorem toggle_parity (src : string) (consoleMessage : option string) :
  let h0 := paused src consoleMessage in
  isPlayingAudio h0 = false
  /\ (isPlayingAudio (click h0) = true
      /\ requests (click h0) = [Play]
      /\ pending (click h0) = 1%nat)
  /\ (isPlayingAudio (click (click h0)) = false
      /\ requests (click (click h0)) = [Play; Pause])
  /\ (forall n : nat, isPlayingAudio (Nat.iter n click h0) = Nat.odd n)
  /\ (forall evs : list event,
        isPlayingAudio (run evs h0) = Nat.odd (clicks evs)).
Proof.
  intros h0.
  assert (Hh : audioRef h0 <> None) by discriminate.
  repeat split.
  - intros n. rewrite iter_click_run, (run_isPlaying _ _ Hh), clicks_repeat.
    reflexivity.
  - intros evs. rewrite (run_isPlaying _ _ Hh). reflexivity.
Qed.

(** C6.  When the play request issued by a click on a paused, attached
    player is rejected, the failure is written to the console and
    [isPlayingAudio] stays true, the value it has when the request is
    fulfilled.  No settlement ever changes [isPlayingAudio], and replacing
    every rejection in a trace by a fulfilment leaves the playback state
    unchanged. *)
Theorem play_failure_not_rolled_back (h : Hook) (e : string) :
  audioRef h <> None -> isPlayingAudio h = false ->
  let failed := settle (Rejected e) (click h) in
  let succeeded := settle Fulfilled (click h) in
  console failed = console h ++ [Error "Audio play failed:" e]
  /\ console succeeded = console h
  /\ isPlayingAudio failed = true
  /\ isPlayingAudio failed = isPlayingAudio succeeded
  /\ (forall (r : settlement) (h' : Hook),
        isPlayingAudio (settle r h') = isPlayingAudio h')
  /\ (forall evs : list event,
        isPlayingAudio (run evs h)
        = isPlayingAudio (run (all_fulfilled evs) h)).
Proof.
  intros Ha Hp failed succeeded. subst failed succeeded.
  rewrite (click_attached _ Ha), Hp.
  unfold settle; cbn. repeat split.
  - intros r h'. apply settle_isPlaying.
  - intros evs.
    apply (run_all_fulfilled evs h h). repeat split.
Qed.

Lemma play_failure_not_rolled_back_witness :
  audioRef (paused "song.mp3" None) <> None
  /\ isPlayingAudio (paused "song.mp3" None) = false
  /\ console
       (settle (Rejected "NotAllowedError") (click (paused "song.mp3" None)))
     = [Error "Audio play failed:" "NotAllowedError"]
  /\ isPlayingAudio
       (settle (Rejected "NotAllowedError") (click (paused "song.mp3" None)))
     = true.
Proof.
  set (h := paused "song.mp3" None).
  assert (Ha : audioRef h <> None) by discriminate.
  assert (Hp : isPlayingAudio h = false) by reflexivity.
  split; [exact Ha|]. split; [exact Hp|].
  destruct (play_failure_not_rolled_back h "NotAllowedError" Ha Hp)
    as (Hc & _ & Ht & _).
  split; [exact Hc | exact Ht].
Defined.

(** C10.  With no element in [audioRef] the toggle does nothing at all:
    the hook is returned unchanged, so no request is issued and
    [isPlayingAudio] keeps its value. *)
Theorem toggle_without_audio_noop (isPlayingAudio : bool) (h : Hook) :
  audioRef h = None ->
  toggleAudio isPlayingAudio h = h /\ click h = h.
Proof.
  intros H. unfold click, toggleAudio. rewrite H.
  split; reflexivity.
Qed.

Lemma toggle_without_audio_noop_witness :
  audioRef (mount None) = None
  /\ toggleAudio false (mount None) = mount None.
Proof.
  split; [reflexivity|].
  apply (toggle_without_audio_noop false (mount None)). reflexivity.
Defined.

End AudioFacts.

(** ** The pointer parallax *)

Section ParallaxFacts.
Import useMouseParallax.

Lemma Qc_nonzero_this (q : Qc) : q <> 0%Qc -> ~ (this q == 0)%Q.
Proof. intros H E. apply H. apply Qc_is_canon. exact E. Qed.

Lemma of_Z_2_nonzero : of_Z 2 <> 0%Qc.
Proof. intros E. apply (f_equal this) in E. discriminate E. Qed.

Lemma half_nonzero (w : Qc) : w <> 0%Qc -> (w / of_Z 2)%Qc <> 0%Qc.
Proof.
  intros Hw E. apply Hw.
  rewrite <- (Qcmult_div_r w (of_Z 2) of_Z_2_nonzero), E. apply Qcmult_0_r.
Qed.

Lemma handleMouseMove_finite (s px py w h : Qc) :
  w <> 0%Qc -> h <> 0%Qc ->
  handleMouseMove (Num s) (viewport w h) (at_ px py)
  = {| x := Num ((px - w / of_Z 2) / (w / of_Z 2) * s);
       y := Num ((py - h / of_Z 2) / (h / of_Z 2) * s) |}.
Proof.
  intros Hw Hh. unfold handleMouseMove, viewport, at_.
  cbn [innerWidth innerHeight clientX clientY]. unfold int.
  rewrite !(div_Num _ (of_Z 2)) by apply Qc_nonzero_this, of_Z_2_nonzero.
  change (Num px - Num (w / of_Z 2)) with (Num (px - w / of_Z 2)).
  change (Num py - Num (h / of_Z 2)) with (Num (py - h / of_Z 2)).
  rewrite !div_Num by (apply Qc_nonzero_this, half_nonzero; assumption).
  reflexivity.
Qed.

Lemma ratio_bound (p w : Q) :
  (0 < w)%Q -> (0 <= p)%Q -> (p <= w)%Q ->
  (- (1) <= (p - w / 2) / (w / 2))%Q /\ ((p - w / 2) / (w / 2) <= 1)%Q.
Proof.
  intros Hw H0 H1.
  change (w / 2)%Q with (w * (1 # 2))%Q.
  assert (Hc : (0 < w * (1 # 2))%Q) by lra.
  split.
  - apply Qle_shift_div_l; [exact Hc | lra].
  - apply Qle_shift_div_r; [exact Hc | lra].
Qed.

Lemma scale_bound (r s : Q) :
  (- (1) <= r)%Q -> (r <= 1)%Q -> (0 <= s)%Q ->
  (- s <= r * s)%Q /\ (r * s <= s)%Q.
Proof. intros. split; nra. Qed.

Lemma component_bounded (s p w : Qc) :
  (0 < w)%Qc -> (0 <= s)%Qc -> (0 <= p)%Qc -> (p <= w)%Qc ->
  (- s <= (p - w / of_Z 2) / (w / of_Z 2) * s)%Qc
  /\ ((p - w / of_Z 2) / (w / of_Z 2) * s <= s)%Qc.
Proof.
  unfold Qclt, Qcle. intros Hw Hs H0 H1.
  rewrite this_opp, this_mult, this_div, this_minus, this_div, this_of_Z.
  change (this 0%Qc) with 0%Q in *.
  apply scale_bound; trivial; apply ratio_bound; trivial.
Qed.

Lemma moves_listening (strength : number)
    (es : list (Window * MouseEvent)) :
  forall h : Hook, listening h = true ->
  listening (HeroSection.moves strength es h) = true.
Proof.
  unfold HeroSection.moves.
  induction es as [|e es IH]; intros h Hh; cbn [fold_left]; [exact Hh|].
  apply IH. unfold mousemove. rewrite Hh. reflexivity.
Qed.

(** C8 fails as stated: in a viewport of width zero the centre of the
    viewport and its top-left corner are both at x = 0, and an event there
    divides zero by zero, so the x offset stored by the mounted hook is
    [NaN], neither 0 nor -s. *)
Lemma parallax_offset_zero_width :
  offset
    (mousemove (int 15) (viewport 0 (of_Z 100))
       (at_ (0 / of_Z 2) (of_Z 100 / of_Z 2)) mount)
  <> {| x := int 0; y := int 0 |}
  /\ offset
       (mousemove (int 15) (viewport 0 (of_Z 100)) (at_ 0 0) mount)
     <> {| x := Num (- of_Z 15); y := Num (- of_Z 15) |}
  /\ x (offset
          (mousemove (int 15) (viewport 0 (of_Z 100)) (at_ 0 0) mount))
     = NaN.
Proof.
  split; [|split].
  - intros E. apply (f_equal x) in E. vm_compute in E. discriminate E.
  - intros E. apply (f_equal x) in E. vm_compute in E. discriminate E.
  - vm_compute. reflexivity.
Qed.

(** C8, amended.  The offset of the mounted hook is {0, 0} before any
    pointer event.  For every pointer event at (px, py) with a viewport
    (w, h) of non-zero width and height and strength s, the mounted hook,
    whatever events it has received before, stores
    x = (px - w/2) / (w/2) * s and y = (py - h/2) / (h/2) * s; an event at
    the centre of the viewport gives {0, 0} and an event at (0, 0) gives
    {-s, -s}. *)
Theorem parallax_offset_formula
    (s px py w h : Qc) (es : list (Window * MouseEvent)) :
  w <> 0%Qc -> h <> 0%Qc ->
  offset mount = {| x := int 0; y := int 0 |}
  /\ offset
       (mousemove (Num s) (viewport w h) (at_ px py)
          (HeroSection.moves (Num s) es mount))
     = {| x := Num ((px - w / of_Z 2) / (w / of_Z 2) * s);
          y := Num ((py - h / of_Z 2) / (h / of_Z 2) * s) |}
  /\ offset
       (mousemove (Num s) (viewport w h) (at_ (w / of_Z 2) (h / of_Z 2))
          (HeroSection.moves (Num s) es mount))
     = {| x := int 0; y := int 0 |}
  /\ offset
       (mousemove (Num s) (viewport w h) (at_ 0 0)
          (HeroSection.moves (Num s) es mount))
     = {| x := Num (- s); y := Num (- s) |}.
Proof.
  intros Hw Hh.
  pose proof (half_nonzero w Hw) as Hcw.
  pose proof (half_nonzero h Hh) as Hch.
  assert (L : listening (HeroSection.moves (Num s) es mount) = true)
    by (apply moves_listening; reflexivity).
  unfold mousemove. rewrite L. cbn [offset].
  split; [reflexivity|]. split; [|split].
  - now apply handleMouseMove_finite.
  - rewrite handleMouseMove_finite by assumption.
    generalize dependent (w / of_Z 2)%Qc. generalize dependent (h / of_Z 2)%Qc.
    intros ch Hch cw Hcw.
    unfold int. f_equal; f_equal; change (of_Z 0) with 0%Qc; field; assumption.
  - rewrite handleMouseMove_finite by assumption.
    generalize dependent (w / of_Z 2)%Qc. generalize dependent (h / of_Z 2)%Qc.
    intros ch Hch cw Hcw.
    f_equal; f_equal; field; assumption.
Qed.

Lemma parallax_offset_formula_witness :
  of_Z 200 <> 0%Qc /\ of_Z 100 <> 0%Qc
  /\ offset
       (mousemove (int 15) (viewport (of_Z 200) (of_Z 100)) (at_ 0 0) mount)
     = {| x := Num (- of_Z 15); y := Num (- of_Z 15) |}.
Proof.
  assert (Hw : of_Z 200 <> 0%Qc)
    by (intros E; apply (f_equal this) in E; discriminate E).
  assert (Hh : of_Z 100 <> 0%Qc)
    by (intros E; apply (f_equal this) in E; discriminate E).
  split; [exact Hw|]. split; [exact Hh|].
  apply (parallax_offset_formula (of_Z 15) 0 0 (of_Z 200) (of_Z 100) []
           Hw Hh).
Defined.

(** C9 fails as stated: a pointer event outside the viewport (as delivered
    while a drag leaves the window) gives an offset beyond the strength. *)
Lemma parallax_offset_unbounded :
  bounded (int 15)
    (handleMouseMove (int 15) (viewport (of_Z 200) (of_Z 100))
       (at_ (of_Z 300) (of_Z 50)))
  = false
  /\ x (handleMouseMove (int 15) (viewport (of_Z 200) (of_Z 100))
          (at_ (of_Z 300) (of_Z 50)))
     = int 30.
Proof. split; vm_compute; reflexivity. Qed.

(** C9, amended.  For a pointer event inside the viewport
    (0 <= px <= w, 0 <= py <= h, with w, h > 0) and a non-negative
    strength, each component of the offset lies in
    [[-strength, +strength]]. *)
Theorem parallax_offset_bounded_in_viewport (s px py w h : Qc) :
  (0 < w)%Qc -> (0 < h)%Qc -> (0 <= s)%Qc ->
  (0 <= px)%Qc -> (px <= w)%Qc -> (0 <= py)%Qc -> (py <= h)%Qc ->
  bounded (Num s) (handleMouseMove (Num s) (viewport w h) (at_ px py))
  = true.
Proof.
  intros Hw Hh Hs Hx0 Hx1 Hy0 Hy1.
  rewrite handleMouseMove_finite by (intros E; subst; discriminate).
  unfold bounded. cbn [x y neg].
  destruct (component_bounded s px w Hw Hs Hx0 Hx1) as [Hxl Hxu].
  destruct (component_bounded s py h Hh Hs Hy0 Hy1) as [Hyl Hyu].
  rewrite !andb_true_iff, !le_Num. repeat split; assumption.
Qed.

Lemma parallax_offset_bounded_in_viewport_witness :
  bounded (int 15)
    (handleMouseMove (int 15) (viewport (of_Z 200) (of_Z 100))
       (at_ (of_Z 200) (of_Z 0)))
  = true.
Proof.
  apply (parallax_offset_bounded_in_viewport
           (of_Z 15) (of_Z 200) (of_Z 0) (of_Z 200) (of_Z 100));
    vm_compute; (reflexivity || discriminate).
Defined.

End ParallaxFacts.

(** * Further properties of the hooks and of the components *)

(** ** The countdown breakdown *)

Section CountdownExtras.
Import useCountdown JSLogic CountdownSection.

Lemma Qmodulo_lt (x m : Q) : (0 < m)%Q -> (Spec.Qmodulo x m < m)%Q.
Proof.
  intros Hm. unfold Spec.Qmodulo.
  pose proof (Qlt_floor (x / m)) as H.
  rewrite inject_Z_plus in H.
  apply (Qmult_lt_compat_r _ _ m Hm) in H.
  assert (E : (x / m * m == x)%Q).
  { field. intros E. rewrite E in Hm. discriminate. }
  rewrite E in H. change (inject_Z 1) with 1%Q in H. lra.
Qed.

Lemma spec_days_range (d : Z) : (0 <= Spec.days d <= 365)%Z.
Proof.
  unfold Spec.days. split.
  - apply Qfloor_nonneg, Qmodulo_nonneg. reflexivity.
  - assert (H : (Qfloor (Spec.Qmodulo (inject_Z d / inject_Z Spec.ms_per_day)
                           365.25) < 366)%Z); [|lia].
    rewrite Zlt_Qlt. eapply Qle_lt_trans; [apply Qfloor_le|].
    eapply Qlt_trans; [apply Qmodulo_lt; reflexivity | reflexivity].
Qed.

Lemma spec_years_nonneg (d : Z) : (0 < d)%Z -> (0 <= Spec.years d)%Z.
Proof.
  intros Hd. unfold Spec.years. apply Qfloor_nonneg.
  apply Qle_shift_div_l; [reflexivity|].
  rewrite Qmult_0_l. apply inject_Z_nonneg. lia.
Qed.

(** The hours, minutes and seconds of the specification's breakdown as
    integer quotients of the whole seconds. *)
Lemma spec_clock (d : Z) :
  Spec.hours d = ((d / 1000) / 3600 mod 24)%Z
  /\ Spec.minutes d = ((d / 1000) / 60 mod 60)%Z
  /\ Spec.seconds d = ((d / 1000) mod 60)%Z.
Proof.
  unfold Spec.hours, Spec.minutes, Spec.seconds.
  rewrite <- !Zdiv_Qdiv.
  change (inject_Z d / 1000)%Q with (inject_Z d / inject_Z 1000)%Q.
  rewrite <- Zdiv_Qdiv.
  rewrite !Z.div_div by lia. repeat split.
Qed.

Lemma clock_digits (t : Z) :
  ((t / 3600 mod 24) * 3600 + (t / 60 mod 60) * 60 + t mod 60
   = t mod 86400)%Z.
Proof. Z.to_euclidean_division_equations. lia. Qed.

(** X1.  Whatever the target and the clock, every field of the computed
    state is an integer in its display range: years at least 0, days in
    0..365, hours in 0..23, minutes and seconds in 0..59. *)
Theorem calculateTimeLeft_ranges (target now : Z) :
  (exists y : Z,
      years (calculateTimeLeft target now) = int y /\ (0 <= y)%Z)
  /\ integer_between 0 365 (days (calculateTimeLeft target now))
  /\ integer_between 0 23 (hours (calculateTimeLeft target now))
  /\ integer_between 0 59 (minutes (calculateTimeLeft target now))
  /\ integer_between 0 59 (seconds (calculateTimeLeft target now)).
Proof.
  rewrite calculateTimeLeft_spec. unfold Spec.state, integer_between.
  destruct (target - now <=? 0)%Z eqn:Hd;
    cbn [years days hours minutes seconds].
  - repeat split; exists 0%Z; split; (reflexivity || lia).
  - apply Z.leb_gt in Hd.
    split; [exists (Spec.years (target - now)); split;
            [reflexivity | now apply spec_years_nonneg]|].
    split; [exists (Spec.days (target - now)); split;
            [reflexivity | apply spec_days_range]|].
    unfold Spec.hours, Spec.minutes, Spec.seconds.
    repeat split; eexists; (split; [reflexivity|]);
      match goal with
      | |- (0 <= ?a mod ?m <= _)%Z =>
          pose proof (Z.mod_pos_bound a m); lia
      end.
Qed.

(** X2.  While the target is ahead, the hours, minutes and seconds fields
    are the clock digits of the whole seconds remaining:
    hours * 3600 + minutes * 60 + seconds is floor(diff / 1000) modulo the
    86400 seconds of a day. *)
Theorem calculateTimeLeft_clock_digits (target now : Z) :
  (now < target)%Z ->
  exists hh mm ss : Z,
    hours (calculateTimeLeft target now) = int hh
    /\ minutes (calculateTimeLeft target now) = int mm
    /\ seconds (calculateTimeLeft target now) = int ss
    /\ (hh * 3600 + mm * 60 + ss = ((target - now) / 1000) mod 86400)%Z.
Proof.
  intros H. rewrite calculateTimeLeft_spec. unfold Spec.state.
  replace (target - now <=? 0)%Z with false by (symmetry; apply Z.leb_gt; lia).
  cbn [hours minutes seconds].
  destruct (spec_clock (target - now)) as (Eh & Em & Es).
  exists (Spec.hours (target - now)), (Spec.minutes (target - now)),
    (Spec.seconds (target - now)).
  repeat split. rewrite Eh, Em, Es. apply clock_digits.
Qed.

Lemma calculateTimeLeft_clock_digits_witness :
  (1000 < 93784500)%Z
  /\ exists hh mm ss : Z,
       hours (calculateTimeLeft 93784500 1000) = int hh
       /\ minutes (calculateTimeLeft 93784500 1000) = int mm
       /\ seconds (calculateTimeLeft 93784500 1000) = int ss
       /\ (hh * 3600 + mm * 60 + ss = ((93784500 - 1000) / 1000) mod 86400)%Z.
Proof.
  assert (H : (1000 < 93784500)%Z) by lia.
  split; [exact H|]. exact (calculateTimeLeft_clock_digits 93784500 1000 H).
Defined.

Lemma Qfloor_unit (x : Q) : (0 <= x)%Q -> (x < 1)%Q -> Qfloor x = 0%Z.
Proof.
  intros H0 H1. pose proof (Qfloor_nonneg x H0) as Hlo.
  assert (Hhi : (Qfloor x < 1)%Z); [|lia].
  rewrite Zlt_Qlt. eapply Qle_lt_trans; [apply Qfloor_le | exact H1].
Qed.

Lemma spec_first_year (d : Z) :
  (0 < d < 31557600000)%Z ->
  Spec.years d = 0%Z /\ Spec.days d = ((d / 1000) / 86400)%Z.
Proof.
  intros [Hlo Hhi].
  assert (Hd : (inject_Z d < 31557600000)%Q)
    by (change 31557600000%Q with (inject_Z 31557600000);
        now rewrite <- Zlt_Qlt).
  pose proof (inject_Z_nonneg d ltac:(lia)) as Hd0.
  split.
  - unfold Spec.years. apply Qfloor_unit.
    + apply Qle_shift_div_l; [reflexivity|]. now rewrite Qmult_0_l.
    + apply Qlt_shift_div_r; [reflexivity|]. rewrite Qmult_1_l.
      eapply Qlt_le_trans; [exact Hd | discriminate].
  - unfold Spec.days, Spec.Qmodulo.
    set (y := (inject_Z d / inject_Z Spec.ms_per_day)%Q).
    assert (Hy0 : (0 <= y)%Q) by (apply Qdiv_nonneg; [lia | reflexivity]).
    assert (Hy1 : (y * 86400000 < 31557600000)%Q).
    { unfold y. change (inject_Z Spec.ms_per_day) with 86400000%Q.
      setoid_replace (inject_Z d / 86400000 * 86400000)%Q with (inject_Z d);
        [exact Hd | field]. }
    rewrite (Qfloor_unit (y / 365.25)).
    + rewrite Z.div_div by lia.
      transitivity (Qfloor y).
      * apply Qfloor_comp. change (inject_Z 0) with 0%Q. ring.
      * unfold y. now rewrite <- Zdiv_Qdiv.
    + apply Qle_shift_div_l; [reflexivity|]. now rewrite Qmult_0_l.
    + apply Qlt_shift_div_r; [reflexivity|]. lra.
Qed.

(** X3.  While less than one 365.25-day year remains, the breakdown is
    exact: years is 0 and days, hours, minutes and seconds add up to the
    whole seconds remaining. *)
Theorem calculateTimeLeft_first_year (target now : Z) :
  (0 < target - now < 31557600000)%Z ->
  exists dd hh mm ss : Z,
    calculateTimeLeft target now
    = {| years := int 0; days := int dd; hours := int hh;
         minutes := int mm; seconds := int ss |}
    /\ (dd * 86400 + hh * 3600 + mm * 60 + ss = (target - now) / 1000)%Z.
Proof.
  intros H. rewrite calculateTimeLeft_spec. unfold Spec.state.
  replace (target - now <=? 0)%Z with false by (symmetry; apply Z.leb_gt; lia).
  destruct (spec_first_year _ H) as [Ey Ed].
  destruct (spec_clock (target - now)) as (Eh & Em & Es).
  rewrite Ey, Ed, Eh, Em, Es.
  do 4 eexists. split; [reflexivity|].
  rewrite <- Z.add_assoc, <- Z.add_assoc, (Z.add_assoc (_ * 3600)).
  rewrite clock_digits.
  pose proof (Z.div_mod ((target - now) / 1000) 86400). lia.
Qed.

Lemma calculateTimeLeft_first_year_witness :
  (0 < 93784500 - 1000 < 31557600000)%Z
  /\ exists dd hh mm ss : Z,
       calculateTimeLeft 93784500 1000
       = {| years := int 0; days := int dd; hours := int hh;
            minutes := int mm; seconds := int ss |}
       /\ (dd * 86400 + hh * 3600 + mm * 60 + ss
           = (93784500 - 1000) / 1000)%Z.
Proof.
  assert (H : (0 < 93784500 - 1000 < 31557600000)%Z) by lia.
  split; [exact H|]. exact (calculateTimeLeft_first_year 93784500 1000 H).
Defined.

Lemma spec_years_monotone (d1 d2 : Z) :
  (0 < d1 <= d2)%Z -> (Spec.years d1 <= Spec.years d2)%Z.
Proof.
  intros H. unfold Spec.years. apply Qfloor_resp_le.
  apply Qmult_le_compat_r; [|discriminate].
  rewrite <- Zle_Qle. lia.
Qed.

(** X4.  For a fixed target the years field never goes up as the clock
    advances. *)
Theorem calculateTimeLeft_years_monotone (target now later : Z) :
  (now <= later)%Z ->
  (years (calculateTimeLeft target later)
   <= years (calculateTimeLeft target now)) = true.
Proof.
  intros H. rewrite !calculateTimeLeft_spec. unfold Spec.state.
  destruct (target - later <=? 0)%Z eqn:H2;
    destruct (target - now <=? 0)%Z eqn:H1;
    cbn [years]; rewrite le_int; apply Z.leb_le;
    rewrite ?Z.leb_le, ?Z.leb_gt in *.
  - lia.
  - apply spec_years_nonneg. lia.
  - lia.
  - apply spec_years_monotone. lia.
Qed.

Lemma calculateTimeLeft_years_monotone_witness :
  (1000 <= 2000)%Z
  /\ (years (calculateTimeLeft 157766400000 2000)
      <= years (calculateTimeLeft 157766400000 1000)) = true.
Proof.
  assert (H : (1000 <= 2000)%Z) by lia.
  split; [exact H|].
  exact (calculateTimeLeft_years_monotone 157766400000 1000 2000 H).
Defined.

End CountdownExtras.

(** ** What the countdown section shows *)

Section CountdownSectionExtras.
Import useCountdown JSLogic CountdownSection.

Lemma is_zero_of_Z (z : Z) : is_zero (of_Z z) = (z =? 0)%Z.
Proof.
  unfold is_zero. change 0%Qc with (of_Z 0).
  rewrite of_Z_compare, Z.eqb_compare. reflexivity.
Qed.

Lemma or_else_int (z : Z) : or_else (Some (int z)) (int 0) = int z.
Proof.
  unfold or_else, truthy, int. rewrite is_zero_of_Z.
  destruct (Z.eqb_spec z 0) as [->|_]; reflexivity.
Qed.

Lemma shown_spec_state (d : Z) : shown (Some (Spec.state d)) = Spec.state d.
Proof.
  unfold Spec.state, shown, field.
  destruct (d <=? 0)%Z; cbn [option_map years days hours minutes seconds];
    now rewrite !or_else_int.
Qed.

(** X5.  The [|| 0] fallbacks of the section only matter before the first
    effect: on the initial empty object the page shows five zeros, and for
    every state the hook computes the page shows exactly its fields. *)
Theorem countdown_section_shows_state :
  shown None = zero
  /\ (forall target now : Z,
        shown (Some (calculateTimeLeft target now))
        = calculateTimeLeft target now)
  /\ (forall (target now : Z) (h : Hook),
        render (effect target now h) = calculateTimeLeft target now).
Proof.
  split; [reflexivity|]. split; intros; unfold render, effect;
    cbn [timeLeft]; rewrite calculateTimeLeft_spec; apply shown_spec_state.
Qed.

End CountdownSectionExtras.

Section AppExtras.
Import useCountdown App.

(** X7.  Whatever the year shift and the mount instant, the state stored
    when the countdown starts is all zeros and the page shows five zeros;
    the ref then holds the shifted target, and the first expiry of the
    interval replaces the zeros by the breakdown of the time to that
    target. *)
Theorem app_mount_then_tick (addFiveYears : Z -> Z) (t0 t1 now : Z) :
  (t0 <= t1)%Z ->
  timeLeft (countdown (mount addFiveYears t0 t1)) = Some zero
  /\ CountdownSection.render (countdown (mount addFiveYears t0 t1)) = zero
  /\ targetDate (mount addFiveYears t0 t1) = addFiveYears t0
  /\ timeLeft (countdown (tick now (mount addFiveYears t0 t1)))
     = Some (Spec.state (addFiveYears t0 - now)).
Proof.
  intros H. pose proof (mount_first_state addFiveYears t0 t1 H) as E.
  split; [exact E|]. split.
  - unfold CountdownSection.render. rewrite E. reflexivity.
  - split; [reflexivity|].
    unfold tick, mount, appEffect, countdownEffect, render, effect.
    cbn. now rewrite calculateTimeLeft_spec.
Qed.

Lemma app_mount_then_tick_witness :
  (1767225600000 <= 1767225600005)%Z
  /\ timeLeft
       (countdown
          (mount (fun t => (t + 157766400000)%Z) 1767225600000 1767225600005))
     = Some zero.
Proof.
  assert (H : (1767225600000 <= 1767225600005)%Z) by lia.
  split; [exact H|].
  exact (proj1 (app_mount_then_tick (fun t => (t + 157766400000)%Z)
                  1767225600000 1767225600005 0 H)).
Defined.

End AppExtras.

(** ** The carousel *)

Section ShayariCarouselExtras.
Import useShayariRotation ShayariCarousel.

Lemma nth_error_seq (A : Type) (l : list A) :
  map (nth_error l) (seq 0 (List.length l)) = map Some l.
Proof.
  induction l as [|a l IH]; [reflexivity|].
  cbn [List.length seq map nth_error]. f_equal.
  rewrite <- seq_shift, map_map. exact IH.
Qed.

(** X8.  Over one pass the carousel shows every line of the list exactly
    once, in the order of the list. *)
Theorem carousel_pass_shows_every_line (lines : list string) :
  pass lines = map Some lines.
Proof.
  destruct lines as [|l0 rest] eqn:E; [reflexivity|]. rewrite <- E.
  assert (Hne : lines <> []) by (rewrite E; discriminate).
  unfold pass, shownAfter. rewrite <- nth_error_seq.
  apply map_ext_in. intros k Hk. apply in_seq in Hk.
  rewrite (currentShayari_after lines Hne k).
  now rewrite Nat.mod_small by lia.
Qed.

(** X9.  On a non-empty list the carousel never shows [undefined]: after
    any number of expiries it shows a line of the list, and it shows the
    same line again one list length later. *)
Theorem carousel_periodic_and_defined (lines : list string) (k : nat) :
  lines <> [] ->
  (exists line : string, shownAfter lines k = Some line /\ In line lines)
  /\ shownAfter lines (k + List.length lines) = shownAfter lines k.
Proof.
  intros Hne. unfold shownAfter. rewrite !(currentShayari_after lines Hne).
  assert (HN : List.length lines <> 0%nat)
    by (destruct lines; [congruence | discriminate]).
  split.
  - destruct (nth_error lines (k mod List.length lines)) as [line|] eqn:E.
    + exists line. split; [reflexivity|]. eapply nth_error_In; exact E.
    + apply nth_error_None in E.
      pose proof (Nat.mod_upper_bound k _ HN). lia.
  - rewrite <- (Nat.mul_1_l (List.length lines)) at 1.
    now rewrite Nat.Div0.mod_add.
Qed.

Lemma carousel_periodic_and_defined_witness :
  ["a"; "b"; "c"]%string <> []
  /\ shownAfter ["a"; "b"; "c"]%string
       (2 + List.length ["a"; "b"; "c"]%string)
     = shownAfter ["a"; "b"; "c"]%string 2.
Proof.
  assert (H : ["a"; "b"; "c"]%string <> []) by discriminate.
  split; [exact H|].
  exact (proj2 (carousel_periodic_and_defined ["a"; "b"; "c"]%string 2 H)).
Defined.

End ShayariCarouselExtras.

(** ** The audio player *)

Section AudioPlayerExtras.
Import useAudioPlayer AudioPlayer.

Lemma settle_requests (r : settlement) (h : Hook) :
  requests (settle r h) = requests h.
Proof. unfold settle. destruct (pending h); reflexivity. Qed.

(** X11.  On an attached player the requests made on the audio element
    strictly alternate: whatever the clicks and settlements, the element
    receives play, pause, play, ... in turn, one request per click, the
    first being a pause only if the player was playing. *)
Theorem requests_alternate (evs : list event) (h : Hook) :
  audioRef h <> None ->
  requests (run evs h)
  = requests h ++ alternating (clicks evs) (isPlayingAudio h).
Proof.
  unfold run. revert h.
  induction evs as [|ev evs IH]; intros h Hh; cbn [fold_left].
  - cbn. now rewrite app_nil_r.
  - rewrite IH by (rewrite step_audioRef; exact Hh).
    destruct ev as [|r]; cbn [step].
    + rewrite (click_attached _ Hh). cbn [requests isPlayingAudio].
      unfold clicks. cbn [filter List.length alternating].
      now rewrite <- app_assoc.
    + rewrite settle_requests, settle_isPlaying. reflexivity.
Qed.

Lemma requests_alternate_witness :
  audioRef (paused "song.mp3" None) <> None
  /\ requests
       (run [Click; Settle (Rejected "NotAllowedError"); Click; Click]
          (paused "song.mp3" None))
     = [Play; Pause; Play].
Proof.
  assert (H : audioRef (paused "song.mp3" None) <> None) by discriminate.
  split; [exact H|].
  exact (requests_alternate
           [Click; Settle (Rejected "NotAllowedError"); Click; Click]
           (paused "song.mp3" None) H).
Defined.

(** X12.  Two calls of one and the same [toggleAudio] closure do not
    cancel out: the closure reads the value captured by its render, so the
    second call stores the same value as the first and repeats the same
    request. *)
Theorem toggleAudio_same_closure_twice (isPlayingAudio : bool) (h : Hook) :
  audioRef h <> None ->
  useAudioPlayer.isPlayingAudio
    (toggleAudio isPlayingAudio (toggleAudio isPlayingAudio h))
  = useAudioPlayer.isPlayingAudio (toggleAudio isPlayingAudio h)
  /\ requests (toggleAudio isPlayingAudio (toggleAudio isPlayingAudio h))
     = requests h
       ++ [if isPlayingAudio then Pause else Play;
           if isPlayingAudio then Pause else Play].
Proof.
  intros Hh. unfold toggleAudio.
  destruct (audioRef h) as [src|] eqn:E; [|congruence].
  cbn. split; [reflexivity|]. now rewrite <- app_assoc.
Qed.

Lemma toggleAudio_same_closure_twice_witness :
  audioRef (paused "song.mp3" None) <> None
  /\ requests (toggleAudio false (toggleAudio false (paused "song.mp3" None)))
     = [Play; Play].
Proof.
  assert (H : audioRef (paused "song.mp3" None) <> None) by discriminate.
  split; [exact H|].
  exact (proj2 (toggleAudio_same_closure_twice false
                  (paused "song.mp3" None) H)).
Defined.

Lemma plays_app (rs rs' : list request) :
  plays (rs ++ rs') = (plays rs + plays rs')%nat.
Proof. unfold plays. now rewrite filter_app, length_app. Qed.

Lemma step_consoleInvariant (c0 : list entry) (h : Hook) (ev : event) :
  consoleInvariant c0 h -> consoleInvariant c0 (step h ev).
Proof.
  intros (errs & Hc & Hf & Hn). destruct ev as [|r]; cbn [step].
  - unfold click, toggleAudio. destruct (audioRef h);
      [|exists errs; repeat split; assumption].
    exists errs. cbn [console pending requests]. repeat split; trivial.
    rewrite plays_app.
    destruct (isPlayingAudio h);
      [change (plays [Pause]) with 0%nat | change (plays [Play]) with 1%nat];
      lia.
  - unfold settle. destruct (pending h) as [|n] eqn:Ep;
      [exists errs; repeat split; (assumption || lia)|].
    destruct r as [|e].
    + exists errs. cbn [console pending requests].
      repeat split; trivial. lia.
    + exists (errs ++ [Error "Audio play failed:" e]).
      cbn [console pending requests].
      rewrite Hc, <- app_assoc, forallb_app, Hf, length_app.
      repeat split; cbn [List.length]; lia.
Qed.

Lemma run_consoleInvariant (c0 : list entry) (evs : list event) :
  forall h : Hook, consoleInvariant c0 h -> consoleInvariant c0 (run evs h).
Proof.
  unfold run. induction evs as [|ev evs IH]; intros h Hh; cbn [fold_left];
    [exact Hh|].
  apply IH. now apply step_consoleInvariant.
Qed.

(** X13.  From the mounted, paused player and over any clicks and
    settlements, the console holds the mount message once, at the front,
    when the message is a non-empty string, and no mount message when it
    is missing or empty; every later line is the report of a failed play;
    and the failures reported plus the promises still outstanding never
    exceed the plays requested. *)
Theorem console_only_gains_play_failures
    (src msg : string) (evs : list event) :
  msg <> EmptyString ->
  consoleInvariant [Log msg] (run evs (paused src (Some msg)))
  /\ consoleInvariant [] (run evs (paused src None))
  /\ consoleInvariant [] (run evs (paused src (Some EmptyString))).
Proof.
  intros Hmsg.
  assert (Em : console (mount (Some msg)) = [Log msg]).
  { cbn [mount console]. destruct (String.eqb_spec msg EmptyString);
      [congruence | reflexivity]. }
  repeat split; apply run_consoleInvariant.
  - exists []. cbn [paused attach console pending requests]. rewrite Em.
    repeat split. cbn. lia.
  - exists []. repeat split. cbn. lia.
  - exists []. repeat split. cbn. lia.
Qed.

Lemma console_only_gains_play_failures_witness :
  "hello"%string <> EmptyString
  /\ consoleInvariant [Log "hello"]
       (run [Click; Settle (Rejected "NotAllowedError")]
          (paused "song.mp3" (Some "hello"%string))).
Proof.
  assert (H : "hello"%string <> EmptyString) by discriminate.
  split; [exact H|].
  exact (proj1 (console_only_gains_play_failures "song.mp3" "hello"
                  [Click; Settle (Rejected "NotAllowedError")] H)).
Defined.

End AudioPlayerExtras.

(** ** The hero section *)

Section HeroSectionExtras.
Import useMouseParallax HeroSection JSLogic.

(** X14.  The offset is point-symmetric about the centre of the viewport:
    mirroring the pointer through the centre negates both components.  In
    particular the bottom-right corner gives {+s, +s}. *)
Theorem parallax_point_symmetry (s px py w h : Qc) :
  w <> 0%Qc -> h <> 0%Qc ->
  handleMouseMove (Num s) (viewport w h) (at_ (w - px) (h - py))
  = opposite (handleMouseMove (Num s) (viewport w h) (at_ px py))
  /\ handleMouseMove (Num s) (viewport w h) (at_ w h)
     = {| x := Num s; y := Num s |}.
Proof.
  intros Hw Hh. rewrite !handleMouseMove_finite by assumption.
  unfold opposite. cbn [x y neg].
  assert (E2 : of_Z 2 = (1 + 1)%Qc) by (apply Qc_is_canon; reflexivity).
  rewrite E2 in *.
  split; apply (f_equal2 Build_Offset); apply (f_equal Num); field;
    (split; [intros E; apply (f_equal this) in E; discriminate E
            | assumption]).
Qed.

Lemma parallax_point_symmetry_witness :
  of_Z 200 <> 0%Qc /\ of_Z 100 <> 0%Qc
  /\ handleMouseMove (int 15) (viewport (of_Z 200) (of_Z 100))
       (at_ (of_Z 200) (of_Z 100))
     = {| x := int 15; y := int 15 |}.
Proof.
  assert (Hw : of_Z 200 <> 0%Qc)
    by (intros E; apply (f_equal this) in E; discriminate E).
  assert (Hh : of_Z 100 <> 0%Qc)
    by (intros E; apply (f_equal this) in E; discriminate E).
  split; [exact Hw|]. split; [exact Hh|].
  exact (proj2 (parallax_point_symmetry (of_Z 15) 0 0 (of_Z 200) (of_Z 100)
                  Hw Hh)).
Defined.

Lemma zero_centre : Num 0 / int 2 = Num 0.
Proof.
  unfold int. rewrite div_Num by apply Qc_nonzero_this, of_Z_2_nonzero.
  f_equal. apply Qc_is_canon. reflexivity.
Qed.

Lemma not_finite_over_zero (p s : Qc) :
  finite (Num p / Num 0 * Num s) = false.
Proof.
  unfold div. change (is_zero 0) with true. cbn iota.
  destruct (is_zero p); [reflexivity|].
  cbn [mul]. destruct (is_zero s); reflexivity.
Qed.

(** X15.  In a viewport of width zero the horizontal offset is never a
    finite number, wherever the pointer is and whatever the strength: the
    division by the zero centre yields [NaN] or an infinity.  The same
    holds of the vertical offset in a viewport of height zero. *)
Theorem parallax_zero_viewport_not_finite (s px py d : Qc) :
  finite (x (handleMouseMove (Num s) (viewport 0 d) (at_ px py))) = false
  /\ finite (y (handleMouseMove (Num s) (viewport d 0) (at_ px py))) = false.
Proof.
  unfold handleMouseMove, viewport, at_.
  cbn [innerWidth innerHeight clientX clientY x y].
  rewrite zero_centre.
  change (Num px - Num 0) with (Num (px - 0)).
  change (Num py - Num 0) with (Num (py - 0)).
  split; apply not_finite_over_zero.
Qed.

Lemma component_monotone (s p p' w : Qc) :
  (0 < w)%Qc -> (0 <= s)%Qc -> (p <= p')%Qc ->
  ((p - w / of_Z 2) / (w / of_Z 2) * s
   <= (p' - w / of_Z 2) / (w / of_Z 2) * s)%Qc.
Proof.
  unfold Qclt, Qcle. intros Hw Hs Hp.
  rewrite !this_mult, !this_div, !this_minus, !this_div, this_of_Z.
  change (this 0%Qc) with 0%Q in *.
  change (this w / inject_Z 2)%Q with (this w * (1 # 2))%Q.
  assert (Hc : (0 < this w * (1 # 2))%Q) by lra.
  apply Qmult_le_compat_r; [|exact Hs].
  apply Qmult_le_compat_r; [lra|].
  apply Qlt_le_weak, Qinv_lt_0_compat. exact Hc.
Qed.

(** X16.  With a viewport of positive size and a non-negative strength
    the offset follows the pointer: moving the pointer right never
    decreases x, and moving it down never decreases y. *)
Theorem parallax_monotone (s px px' py py' w h : Qc) :
  (0 < w)%Qc -> (0 < h)%Qc -> (0 <= s)%Qc ->
  (px <= px')%Qc -> (py <= py')%Qc ->
  (x (handleMouseMove (Num s) (viewport w h) (at_ px py))
   <= x (handleMouseMove (Num s) (viewport w h) (at_ px' py'))) = true
  /\ (y (handleMouseMove (Num s) (viewport w h) (at_ px py))
      <= y (handleMouseMove (Num s) (viewport w h) (at_ px' py'))) = true.
Proof.
  intros Hw Hh Hs Hx Hy.
  rewrite !handleMouseMove_finite by (intros E; subst; discriminate).
  cbn [x y]. rewrite !le_Num.
  split; now apply component_monotone.
Qed.

Lemma parallax_monotone_witness :
  (x (handleMouseMove (int 15) (viewport (of_Z 200) (of_Z 100))
        (at_ (of_Z 20) (of_Z 30)))
   <= x (handleMouseMove (int 15) (viewport (of_Z 200) (of_Z 100))
           (at_ (of_Z 120) (of_Z 30)))) = true.
Proof.
  apply (parallax_monotone (of_Z 15) (of_Z 20) (of_Z 120) (of_Z 30) (of_Z 30)
           (of_Z 200) (of_Z 100));
    vm_compute; (reflexivity || discriminate).
Defined.

Lemma moves_cleanup (strength : number) (es : list (Window * MouseEvent))
    (h : Hook) :
  moves strength es (cleanup h) = cleanup h.
Proof.
  unfold moves. induction es as [|e es IH]; [reflexivity|].
  cbn [fold_left]. exact IH.
Qed.

(** X17.  The hook keeps no memory beyond the last sample: after any
    sequence of pointer events received while the listener is registered
    the offset is the one computed from the last event alone; and once the
    cleanup has removed the listener no event changes the offset. *)
Theorem parallax_last_sample_only
    (strength : number) (es later : list (Window * MouseEvent))
    (window : Window) (e : MouseEvent) (h : Hook) :
  listening h = true ->
  offset (moves strength (es ++ [(window, e)]) h)
  = handleMouseMove strength window e
  /\ offset
       (moves strength later
          (cleanup (moves strength (es ++ [(window, e)]) h)))
     = handleMouseMove strength window e.
Proof.
  intros Hh.
  assert (E : offset (moves strength (es ++ [(window, e)]) h)
              = handleMouseMove strength window e).
  { pose proof (moves_listening strength es h Hh) as L.
    unfold moves in *. rewrite fold_left_app. cbn [fold_left fst snd].
    unfold mousemove at 1. now rewrite L. }
  split; [exact E|]. rewrite moves_cleanup. exact E.
Qed.

Lemma parallax_last_sample_only_witness :
  listening mount = true
  /\ offset
       (moves strength
          [(viewport (of_Z 200) (of_Z 100), at_ (of_Z 10) (of_Z 10));
           (viewport (of_Z 200) (of_Z 100), at_ (of_Z 100) (of_Z 50))]
          mount)
     = handleMouseMove strength (viewport (of_Z 200) (of_Z 100))
         (at_ (of_Z 100) (of_Z 50)).
Proof.
  assert (H : listening mount = true) by reflexivity.
  split; [exact H|].
  exact (proj1 (parallax_last_sample_only strength
                  [(viewport (of_Z 200) (of_Z 100),
                    at_ (of_Z 10) (of_Z 10))]
                  [] (viewport (of_Z 200) (of_Z 100))
                  (at_ (of_Z 100) (of_Z 50)) mount H)).
Defined.

End HeroSectionExtras.

(** ** The commitment pledge *)

Section CommitmentPledgeExtras.
Import CommitmentPledgeSection.

Variable sep : ascii.

Lemma split_nonempty (s : string) : split sep s <> [].
Proof.
  destruct s as [|c s]; cbn [split]; [discriminate|].
  destruct (Ascii.eqb c sep); [discriminate|].
  destruct (split sep s); discriminate.
Qed.

Lemma length_split (s : string) :
  List.length (split sep s) = S (occurrences sep s).
Proof.
  induction s as [|c s IH]; cbn [split occurrences]; [reflexivity|].
  destruct (Ascii.eqb c sep); cbn [List.length]; [now rewrite IH|].
  destruct (split sep s) as [|p ps] eqn:E; [discriminate IH | exact IH].
Qed.

Lemma split_pieces_free (s : string) :
  Forall (fun piece => occurrences sep piece = 0%nat) (split sep s).
Proof.
  induction s as [|c s IH]; cbn [split].
  - repeat constructor.
  - destruct (Ascii.eqb c sep) eqn:Ec; [constructor; [reflexivity | exact IH]|].
    destruct (split sep s) as [|p ps].
    + repeat constructor. cbn [occurrences]. now rewrite Ec.
    + inversion IH as [|? ? Hp Hps]; subst. constructor; [|exact Hps].
      cbn [occurrences]. now rewrite Ec.
Qed.

Lemma join_split (s : string) : join sep (split sep s) = s.
Proof.
  induction s as [|c s IH]; cbn [split]; [reflexivity|].
  pose proof (split_nonempty s) as Hne.
  destruct (Ascii.eqb_spec c sep) as [->|_].
  - destruct (split sep s) as [|p ps]; [congruence|].
    cbn [join append]. cbn [join] in IH. now rewrite IH.
  - destruct (split sep s) as [|p ps]; [congruence|].
    destruct ps as [|p' ps]; cbn [join append] in *; now rewrite IH.
Qed.

Lemma map_line_mapi (n : nat) (l : list string) :
  forall i : nat, map line (mapi_from (fragment n) i l) = l.
Proof.
  induction l as [|a l IH]; intros i; cbn [mapi_from map]; [reflexivity|].
  now rewrite IH.
Qed.

Lemma map_key_mapi (n : nat) (l : list string) :
  forall i : nat,
    map key (mapi_from (fragment n) i l) = seq i (List.length l).
Proof.
  induction l as [|a l IH]; intros i; cbn [mapi_from map List.length seq];
    [reflexivity|].
  now rewrite IH.
Qed.

Lemma map_br_mapi (l : list string) :
  forall i : nat, l <> [] ->
    map br (mapi_from (fragment (i + List.length l)) i l)
    = repeat true (List.length l - 1) ++ [false].
Proof.
  induction l as [|a l IH]; intros i Hne; [congruence|].
  cbn [mapi_from map List.length fragment br].
  destruct l as [|b l].
  - cbn [mapi_from map List.length repeat app Nat.sub].
    replace (Z.of_nat i <? Z.of_nat (i + 1) - 1)%Z with false
      by (symmetry; apply Z.ltb_ge; lia).
    reflexivity.
  - replace (Z.of_nat i <? Z.of_nat (i + S (List.length (b :: l))) - 1)%Z
      with true by (symmetry; apply Z.ltb_lt; cbn [List.length]; lia).
    replace (i + S (List.length (b :: l)))%nat
      with (S i + List.length (b :: l))%nat by lia.
    rewrite IH by discriminate.
    cbn [List.length Nat.sub repeat app]. now rewrite Nat.sub_0_r.
Qed.

Lemma append_empty_r (s : string) : (s ++ EmptyString)%string = s.
Proof.
  induction s as [|c s IH]; cbn [append]; [reflexivity | now rewrite IH].
Qed.

Lemma text_mapi (l : list string) :
  forall i : nat,
    text (mapi_from (fragment (i + List.length l)) i l) = join newline l.
Proof.
  induction l as [|a l IH]; intros i; [reflexivity|].
  cbn [mapi_from text List.length fragment line br].
  destruct l as [|b l].
  - cbn [mapi_from text join List.length].
    replace (Z.of_nat i <? Z.of_nat (i + 1) - 1)%Z with false
      by (symmetry; apply Z.ltb_ge; lia).
    cbn [append]. apply append_empty_r.
  - replace (Z.of_nat i <? Z.of_nat (i + S (List.length (b :: l))) - 1)%Z
      with true by (symmetry; apply Z.ltb_lt; cbn [List.length]; lia).
    replace (i + S (List.length (b :: l)))%nat
      with (S i + List.length (b :: l))%nat by lia.
    rewrite IH. reflexivity.
Qed.

End CommitmentPledgeExtras.

Section CommitmentPledgeRender.
Import CommitmentPledgeSection.

(** X18.  The block quote gets one fragment per line of the quote, keyed
    0, 1, 2, ... in order; no fragment's text contains a line feed; and a
    [<br />] follows every fragment except the last, so there are exactly
    as many [<br />] elements as line feeds in the quote. *)
Theorem pledge_fragments (quote : string) :
  map key (render quote) = seq 0 (S (occurrences newline quote))
  /\ Forall (fun f => occurrences newline (line f) = 0%nat) (render quote)
  /\ map br (render quote)
     = repeat true (occurrences newline quote) ++ [false]
  /\ breaks (render quote) = occurrences newline quote.
Proof.
  unfold render.
  pose proof (length_split newline quote) as HL.
  pose proof (split_nonempty newline quote) as Hne.
  assert (Hbr : map br
                  (mapi_from
                     (fragment (List.length (split newline quote))) 0
                     (split newline quote))
                = repeat true (occurrences newline quote) ++ [false]).
  { etransitivity; [exact (map_br_mapi (split newline quote) 0 Hne)|].
    rewrite HL. cbn [Nat.sub]. now rewrite Nat.sub_0_r. }
  split; [now rewrite map_key_mapi, HL|]. split; [|split; [exact Hbr|]].
  - pose proof (split_pieces_free newline quote) as Hf.
    rewrite <- (map_line_mapi (List.length (split newline quote))
                  (split newline quote) 0) in Hf.
    rewrite Forall_map in Hf. exact Hf.
  - unfold breaks.
    set (fs := mapi_from _ 0 _) in *.
    clearbody fs. revert Hbr. generalize (occurrences newline quote).
    induction fs as [|f fs IH]; intros n Hbr.
    + destruct n; discriminate Hbr.
    + destruct n as [|n]; cbn [map repeat app] in Hbr; injection Hbr as Hf Hr.
      * cbn [filter]. rewrite Hf. destruct fs; [reflexivity | discriminate Hr].
      * cbn [filter]. rewrite Hf. cbn [List.length]. f_equal. now apply IH.
Qed.

(** X19.  Reading each [<br />] as a line feed, the text of the rendered
    block quote is the quote itself: splitting and rendering lose
    nothing and add nothing. *)
Theorem pledge_text_round_trip (quote : string) :
  text (render quote) = quote
  /\ join newline (split newline quote) = quote.
Proof.
  split; [|apply join_split].
  etransitivity; [exact (text_mapi (split newline quote) 0)|].
  apply join_split.
Qed.

End CommitmentPledgeRender.

(** ** The stars *)

Section VisualTransitionExtras.
Import JSLogic VisualTransitionSection.

Lemma scaled_within (q : Qc) (k : Z) :
  (0 <= q)%Qc -> (q < 1)%Qc -> (0 < k)%Z ->
  within 0 k (Num q * int k) = true.
Proof.
  unfold Qcle, Qclt. intros H0 H1 Hk.
  change (this 0%Qc) with 0%Q in H0. change (this 1%Qc) with 1%Q in H1.
  pose proof (inject_Z_pos k Hk) as Hk'.
  unfold within, int. cbn [mul].
  rewrite andb_true_iff, !le_Num. unfold Qcle.
  rewrite this_mult, !this_of_Z. change (inject_Z 0) with 0%Q. split.
  - apply Qmult_le_0_compat; [exact H0 | now apply Qlt_le_weak].
  - rewrite <- (Qmult_1_l (inject_Z k)) at 2.
    apply Qmult_le_compat_r; now apply Qlt_le_weak.
Qed.

Lemma scaled_shifted_within (q : Qc) (k c : Z) :
  (0 <= q)%Qc -> (q < 1)%Qc -> (0 < k)%Z ->
  within c (c + k) (Num q * int k + int c) = true.
Proof.
  intros H0 H1 Hk. pose proof (scaled_within q k H0 H1 Hk) as H.
  unfold within, int in *. cbn [mul add] in *.
  rewrite andb_true_iff, !le_Num in *. unfold Qcle in *.
  rewrite this_plus, this_mult, !this_of_Z in *. rewrite inject_Z_plus.
  change (inject_Z 0) with 0%Q in H. lra.
Qed.

(** X20.  Whatever [Math.random()] returns within its range [[0, 1)],
    the section draws twenty stars keyed 0 to 19, each from 1 to 4 pixels
    wide and high, placed from 0 to 90 percent from the top and from the
    left, with a transition lasting from 2 to 5 seconds and delayed by 0
    to 2 seconds, all bounds included. *)
Theorem stars_within_bounds (random : nat -> number) :
  (forall n : nat, unitInterval (random n)) ->
  map key (stars random) = seq 0 20
  /\ Forall
       (fun st =>
          within 1 4 (width st) = true /\ within 1 4 (height st) = true
          /\ within 0 90 (top st) = true /\ within 0 90 (left st) = true
          /\ within 2 5 (duration st) = true
          /\ within 0 2 (delay st) = true)
       (stars random).
Proof.
  intros Hr. unfold stars. split.
  - rewrite map_map. cbn [star key]. apply map_id.
  - apply Forall_map, Forall_forall. intros i _.
    unfold star; cbn [width height top left duration delay].
    destruct (Hr (6 * i)%nat) as (q0 & -> & ? & ?).
    destruct (Hr (6 * i + 1)%nat) as (q1 & -> & ? & ?).
    destruct (Hr (6 * i + 2)%nat) as (q2 & -> & ? & ?).
    destruct (Hr (6 * i + 3)%nat) as (q3 & -> & ? & ?).
    destruct (Hr (6 * i + 4)%nat) as (q4 & -> & ? & ?).
    destruct (Hr (6 * i + 5)%nat) as (q5 & -> & ? & ?).
    repeat split;
      first [ now apply (scaled_shifted_within _ 3 1)
            | now apply (scaled_shifted_within _ 3 2)
            | now apply scaled_within ].
Qed.

Lemma stars_within_bounds_witness :
  (forall n : nat, unitInterval ((fun _ => Num (Q2Qc 0.5)) n))
  /\ List.length (stars (fun _ => Num (Q2Qc 0.5))) = 20%nat.
Proof.
  assert (H : forall n : nat, unitInterval ((fun _ => Num (Q2Qc 0.5)) n)).
  { intros _. exists (Q2Qc 0.5). split; [reflexivity|].
    split; [discriminate | reflexivity]. }
  split; [exact H|].
  rewrite <- (length_map key), (proj1 (stars_within_bounds _ H)).
  reflexivity.
Defined.

End VisualTransitionExtras.
